(** * Command-area delineation with flood-level expansion

    A shallow embedding of [main] in
    [src/Command Area For Reservoir/Reservoir.py]: outlet validation, the
    breadth-first delineation of the default command area, boundary
    detection, the two expansion passes and the statistics.

    Modelling choices.
    - Python integers (pixel coordinates, counts) are [Z].
    - Elevations, the nodata sentinel, the flood level and the affine scale
      terms are real valued in the source (NumPy / Python floats); they are
      rationals [Q] here (every finite floating-point number is one),
      compared with [Qle_bool] / [Qeq_bool].  NaN and infinities are
      outside the model.  The sentinel [nodata] is the number the
      elevations are compared with, [src.nodata] in the number type in
      which NumPy carries out the comparison.
    - A two-dimensional NumPy array is a list of rows; [command_mask]
      ([uint8], only the constants 0, 1, 2 are ever stored) holds [Z].
    - [set()] objects are [gset]s.  Iterating over a Python set visits its
      elements in an order the program does not control; that order is the
      parameter [order] of the run.
    - [while queue:] loops run on fuel; the fuel handed to them is the
      termination measure itself and is proved sufficient.
    - The three arithmetic operations of the source
      ([current_elev + flood_level], [transform.a * transform.e] and
      [total_pixels * pixel_area]) are floating-point operations whose
      rounding depends on the number type of the raster.  They are the
      parameter [ar] of the run; [binary64] and [float32_raster] below
      are IEEE arithmetic, [exact_arith] arithmetic without rounding.
      Comparisons of floating-point numbers are exact and are those of
      [Q]. *)

From Stdlib Require Import ZArith QArith Qabs Lia.
From Stdlib Require Floats.SpecFloat.
From stdpp Require Import base option list strings gmap sets.

Local Open Scope Z_scope.

(** A pixel coordinate [(row, col)]. *)
Abbreviation cell := (Z * Z)%type.

(** ** Two-dimensional arrays *)

Module Array2D.

Abbreviation ndarray A := (list (list A)).

Section Poly.
Context {A : Type}.
Implicit Types (a : ndarray A).

(** [a.shape] *)
Definition height a : Z := Z.of_nat (length a).
Definition width a : Z :=
  match a with
  | [] => 0
  | row :: _ => Z.of_nat (length row)
  end.

(** [np.full((h, w), x)] *)
Definition full (h w : Z) (x : A) : ndarray A :=
  replicate (Z.to_nat h) (replicate (Z.to_nat w) x).

(** [a[r, c]] for a non-negative index pair; [d] stands for a position
    that does not exist (every read of the embedding is bounds-checked
    first, as in the source). *)
Definition aget (d : A) a (p : cell) : A :=
  if (0 <=? p.1) && (0 <=? p.2)
  then default d (row ← a !! Z.to_nat p.1; row !! Z.to_nat p.2)
  else d.

(** [a[r, c] = v] for a non-negative index pair. *)
Definition aset a (p : cell) (v : A) : ndarray A :=
  if (0 <=? p.1) && (0 <=? p.2)
  then alter (λ row, <[Z.to_nat p.2 := v]> row) (Z.to_nat p.1) a
  else a.

(** NumPy index normalisation along one axis of extent [n]: a negative
    index counts from the end, anything outside [-n, n) raises
    [IndexError]. *)
Definition norm_index (n i : Z) : option Z :=
  if (0 <=? i) && (i <? n) then Some i
  else if (- n <=? i) && (i <? 0) then Some (i + n)
  else None.

(** [a[r, c]] as NumPy evaluates it for arbitrary integers. *)
Definition getitem (d : A) a (p : cell) : option A :=
  r ← norm_index (height a) p.1;
  c ← norm_index (width a) p.2;
  Some (aget d a (r, c)).

(** All rows have the same length. *)
Definition has_shape (h w : Z) a : Prop :=
  Z.of_nat (length a) = h ∧ Forall (λ row, Z.of_nat (length row) = w) a.

Definition inside (h w : Z) (p : cell) : Prop :=
  0 ≤ p.1 < h ∧ 0 ≤ p.2 < w.
End Poly.

End Array2D.
Import Array2D.

(** ** Arithmetic *)

(** The arithmetic the run computes with: [arith_add] is the sum
    [current_elev + flood_level] of line 136, [arith_mul] the product
    [transform.a * transform.e] of line 164, [arith_scale] the product
    [total_pixels * pixel_area] of an integer count and a real of
    line 166. *)
Record arith : Type := {
  arith_add : Q → Q → Q;
  arith_mul : Q → Q → Q;
  arith_scale : Z → Q → Q;
}.

(** Arithmetic without rounding. *)
Definition exact_arith : arith :=
  {| arith_add := Qplus;
     arith_mul := Qmult;
     arith_scale := λ n x, (inject_Z n * x)%Q |}.

(** IEEE 754 binary arithmetic with [prec] bits of mantissa and
    infinities at exponent [emax], round to nearest even, on the
    rationals, through the Standard Library's specification of
    floating-point arithmetic. *)
Module IEEE754.
Section Format.
Variables prec emax : Z.

(** The number of the format nearest to an integer. *)
Definition of_Z (n : Z) : SpecFloat.spec_float :=
  SpecFloat.binary_normalize prec emax n 0 false.

(** The number of the format for a rational: the quotient of its
    numerator and denominator, exact when the rational is a number of
    the format. *)
Definition of_Q (q : Q) : SpecFloat.spec_float :=
  SpecFloat.SFdiv prec emax (of_Z (Qnum q)) (of_Z (Zpos (Qden q))).

(** The rational a finite number of the format is (infinities and NaN
    are outside the model and read 0). *)
Definition to_Q (x : SpecFloat.spec_float) : Q :=
  match x with
  | SpecFloat.S754_finite s m e =>
      let v := if s then Zneg m else Zpos m in
      if 0 <=? e then inject_Z (v * 2 ^ e) else v # Z.to_pos (2 ^ (- e))
  | _ => 0%Q
  end.

Definition add (x y : Q) : Q :=
  to_Q (SpecFloat.SFadd prec emax (of_Q x) (of_Q y)).
Definition mul (x y : Q) : Q :=
  to_Q (SpecFloat.SFmul prec emax (of_Q x) (of_Q y)).
Definition scale (n : Z) (x : Q) : Q :=
  to_Q (SpecFloat.SFmul prec emax (of_Z n) (of_Q x)).

(** A sign bit that is not set. *)
Definition unsigned (x : SpecFloat.spec_float) : Prop :=
  match x with
  | SpecFloat.S754_zero s | SpecFloat.S754_infinity s
  | SpecFloat.S754_finite s _ _ => s = false
  | SpecFloat.S754_nan => True
  end.
End Format.
End IEEE754.

(** Double precision throughout: the arithmetic of a run on a raster of
    doubles (and on an integer raster, whose elevations NumPy converts to
    doubles before it adds the flood level). *)
Definition binary64 : arith :=
  {| arith_add := IEEE754.add 53 1024;
     arith_mul := IEEE754.mul 53 1024;
     arith_scale := IEEE754.scale 53 1024 |}.

(** A raster of single-precision elevations where NumPy promotes a
    [float32] scalar and a Python float to [float32] (NumPy 2; NumPy 1
    promotes them to [float64], which is [binary64]): the sum of line 136
    is rounded to single precision; the scale terms and the pixel area
    are Python floats, doubles. *)
Definition float32_raster : arith :=
  {| arith_add := IEEE754.add 24 128;
     arith_mul := IEEE754.mul 53 1024;
     arith_scale := IEEE754.scale 53 1024 |}.

(** ** The program *)

(** The three ways the outlet conversion block can raise: NumPy's own
    [IndexError] on [dem[outlet_row, outlet_col]], and the two
    [ValueError]s of the validation. *)
Inductive error : Type :=
  | IndexError
  | OutOfBounds
  | NoDataOutlet.

(** Mask values. *)
Definition Unvisited : Z := 0.
Definition Default : Z := 1.
Definition FloodExpansion : Z := 2.

(** [neighbors], the eight offsets in the order of the source. *)
Definition neighbors : list cell :=
  [(-1, -1); (-1, 0); (-1, 1);
   (0, -1);           (0, 1);
   (1, -1);  (1, 0);  (1, 1)].

(** [queue.popleft()] *)
Definition popleft (queue : list cell) : option (cell * list cell) :=
  match queue with
  | [] => None
  | p :: rest => Some (p, rest)
  end.

(** The order in which a worklist loop visits: the offsets list it walks
    and the way it takes the next cell from the queue.  The source uses
    [neighbors] and [popleft]. *)
Record schedule : Type := {
  sched_nbrs : list cell;
  sched_pop : list cell → option (cell * list cell);
}.

Definition source_schedule : schedule :=
  {| sched_nbrs := neighbors; sched_pop := popleft |}.

(** A depth-first variant: the offsets in reverse, the newest cell of
    the queue first. *)
Definition stack_schedule : schedule :=
  {| sched_nbrs := reverse neighbors;
     sched_pop := λ queue,
       match reverse queue with
       | [] => None
       | p :: rest => Some (p, reverse rest)
       end |}.

(** A schedule visits the same eight neighbours and every queued cell, in
    whatever order. *)
Record fair (sch : schedule) : Prop := {
  fair_nbrs : ∀ d, d ∈ sched_nbrs sch ↔ d ∈ neighbors;
  fair_pop_none : ∀ queue, sched_pop sch queue = None → queue = [];
  fair_pop_some : ∀ queue p rest,
    sched_pop sch queue = Some (p, rest) → queue ≡ₚ p :: rest;
}.

(** The mutable mask together with a ghost log: every assignment
    [command_mask[p] = v] appends [(p, old, v)], where [old] is the value
    the cell held when it was overwritten. *)
Record state : Type := {
  command_mask : ndarray Z;
  writes : list (cell * Z * Z);
}.

(** [command_mask[p] = v] *)
Definition assign (st : state) (p : cell) (v : Z) : state :=
  {| command_mask := aset (command_mask st) p v;
     writes := writes st ++ [(p, aget 0 (command_mask st) p, v)] |}.

(** [np.sum(cond(a))] for a condition on the cell value. *)
Definition count_if (P : Z → Prop) `{!∀ x, Decision (P x)}
    (a : ndarray Z) : nat :=
  length (filter P (concat a)).

(** Number of cells still [Unvisited]. *)
Definition count0 (a : ndarray Z) : nat := count_if (λ x, x = 0) a.

(** What the run hands to its writers and prints. *)
Record report : Type := {
  mask : ndarray Z;                   (* command_mask at the end *)
  trace : list (cell * Z * Z);        (* ghost: all mask assignments *)
  default_area : Z;                   (* np.sum(command_mask == 1), step 1 *)
  boundary_cells : option (gset cell);(* None: never computed *)
  expansion_cells : option Z;         (* len(new_additions) *)
  pixel_area : Q;
  total_pixels : Z;
  total_area : Q;
  flood_expansion_area : option Z;    (* total_pixels - default_area *)
}.

(** How a run ends: with an exception, with the fuel of a worklist loop
    used up (shown below never to happen), or with its report. *)
Inductive outcome : Type :=
  | Raises (e : error)
  | OutOfFuel
  | Returns (r : report).

Section Program.
Variable dem : ndarray Q.
Variable nodata : option Q.

(** [dem[r, c]] at a bounds-checked position. *)
Definition elev (p : cell) : Q := aget 0%Q dem p.

(** [0 <= nr < height and 0 <= nc < width] *)
Definition in_grid (p : cell) : bool :=
  (0 <=? p.1) && (p.1 <? height dem) && (0 <=? p.2) && (p.2 <? width dem).

(** [nodata is None or dem[nr, nc] != nodata] *)
Definition has_data (p : cell) : bool :=
  match nodata with
  | None => true
  | Some nd => negb (Qeq_bool (elev p) nd)
  end.

(** Lines 66-76: the elevation of the outlet is read first (and printed),
    then the position is validated. *)
Definition check_outlet (outlet : cell) : error + Q :=
  match getitem 0%Q dem outlet with
  | None => inl IndexError
  | Some outlet_elev =>
      if negb (in_grid outlet) then inl OutOfBounds
      else match nodata with
           | Some nd =>
               if Qeq_bool (elev outlet) nd then inl NoDataOutlet
               else inr outlet_elev
           | None => inr outlet_elev
           end
  end.

(** The admission test shared by the three neighbour loops: in bounds,
    mask still 0, not nodata, elevation at most [limit]. *)
Definition admits (limit : Q) (m : ndarray Z) (q : cell) : bool :=
  in_grid q && (aget 0 m q =? 0) && has_data q && Qle_bool (elev q) limit.

(** [for dr, dc in neighbors: ...] around the cell [p]: every admitted
    neighbour gets [mark]; the admitted cells are returned in order (the
    caller appends them to its queue and/or adds them to its set). *)
Fixpoint scan (nbrs : list cell) (mark : Z) (limit : Q) (p : cell)
    (st : state) : state * list cell :=
  match nbrs with
  | [] => (st, [])
  | (dr, dc) :: nbrs' =>
      let q := (p.1 + dr, p.2 + dc) in
      if admits limit (command_mask st) q
      then let '(st', new) := scan nbrs' mark limit p (assign st q mark) in
           (st', q :: new)
      else scan nbrs' mark limit p st
  end.

(** [while queue: r, c = queue.popleft(); for dr, dc in neighbors: ...]
    with the limit [dem[r, c]] of the popped cell.  Returns the final
    state and all cells admitted, in order. *)
Fixpoint flood_fill (sch : schedule) (mark : Z) (fuel : nat) (st : state)
    (queue : list cell) : option (state * list cell) :=
  match sched_pop sch queue with
  | None => Some (st, [])
  | Some (p, rest) =>
      match fuel with
      | O => None
      | S fuel' =>
          let '(st', new) := scan (sched_nbrs sch) mark (elev p) p st in
          '(st'', more) ← flood_fill sch mark fuel' st' (rest ++ new);
          Some (st'', new ++ more)
      end
  end.

(** The fuel for a worklist loop: one iteration per queued cell and per
    cell that can still be admitted. *)
Definition measure (st : state) (queue : list cell) : nat :=
  (count0 (command_mask st) + length queue)%nat.

(** [command_mask = np.zeros(dem.shape, dtype=np.uint8)] *)
Definition blank : state :=
  {| command_mask := full (height dem) (width dem) 0; writes := [] |}.

(** Step 1 (lines 82-100). *)
Definition initial (outlet : cell) : state := assign blank outlet Default.

Definition delineate (sch : schedule) (outlet : cell) : option state :=
  let st0 := initial outlet in
  let queue := [outlet] in
  '(st, _) ← flood_fill sch Default (measure st0 queue) st0 queue;
  Some st.

(** Lines 116-120: does some in-bounds neighbour still hold 0?  The
    [break] is the early [true]. *)
Fixpoint touches_unvisited (nbrs : list cell) (m : ndarray Z) (p : cell)
    : bool :=
  match nbrs with
  | [] => false
  | (dr, dc) :: nbrs' =>
      let q := (p.1 + dr, p.2 + dc) in
      if in_grid q && (aget 0 m q =? 0) then true
      else touches_unvisited nbrs' m p
  end.

(** Lines 112-120. *)
Definition find_boundary (sch : schedule) (m : ndarray Z) : gset cell :=
  foldl (λ acc r,
    foldl (λ acc c,
      if (aget 0 m (r, c) =? 1) && touches_unvisited (sched_nbrs sch) m (r, c)
      then acc ∪ {[ (r, c) ]}
      else acc)
    acc (seqZ 0 (width dem)))
  ∅ (seqZ 0 (height dem)).

Section Expansion.
(** The arithmetic of the raster's number type. *)
Variable ar : arith.
(** Iteration order of a Python set. *)
Variable order : gset cell → list cell.
Variable flood_level : Q.

(** First pass (lines 125-138), one boundary cell. *)
Definition phase1_step (sch : schedule) (acc : state * gset cell)
    (b : cell) : state * gset cell :=
  let '(st, new_additions) := acc in
  let current_elev := elev b in
  let '(st', new) :=
    scan (sched_nbrs sch) FloodExpansion
         (arith_add ar current_elev flood_level) b st in
  (st', new_additions ∪ list_to_set new).

Definition phase1 (sch : schedule) (boundary : gset cell) (st : state)
    : state * gset cell :=
  foldl (phase1_step sch) (st, ∅) (order boundary).

(** Second pass (lines 141-157). *)
Definition phase2 (sch : schedule) (st : state)
    (new_additions : gset cell) : option (state * gset cell) :=
  let expansion_queue := order new_additions in
  '(st', more) ←
    flood_fill sch FloodExpansion (measure st expansion_queue) st
               expansion_queue;
  Some (st', new_additions ∪ list_to_set more).

(** Step 2 (lines 107-161); [None] on the left when skipped. *)
Definition expand (sch : schedule) (st : state)
    : option (state * option (gset cell * Z)) :=
  if Qlt_le_dec 0 flood_level then
    let boundary := find_boundary sch (command_mask st) in
    let '(st1, new_additions) := phase1 sch boundary st in
    '(st2, new_additions') ← phase2 sch st1 new_additions;
    Some (st2, Some (boundary, Z.of_nat (size new_additions')))
  else Some (st, None).

(** Lines 63-173, from the truncated pixel coordinate of the outlet.
    [a] and [e] are the scale terms of the affine transform. *)
Definition main_with (sch : schedule) (outlet : cell) (a e : Q)
    : outcome :=
  match check_outlet outlet with
  | inl err => Raises err
  | inr _ =>
      match delineate sch outlet with
      | None => OutOfFuel
      | Some st =>
          let default_area :=
            Z.of_nat (count_if (λ x, x = 1) (command_mask st)) in
          match expand sch st with
          | None => OutOfFuel
          | Some (st', exp) =>
              let pixel_area := Qabs (arith_mul ar a e) in
              let total_pixels :=
                Z.of_nat (count_if (λ x, 0 < x) (command_mask st')) in
              let total_area := arith_scale ar total_pixels pixel_area in
              Returns
                {| mask := command_mask st';
                   trace := writes st';
                   default_area := default_area;
                   boundary_cells := fst <$> exp;
                   expansion_cells := snd <$> exp;
                   pixel_area := pixel_area;
                   total_pixels := total_pixels;
                   total_area := total_area;
                   flood_expansion_area :=
                     (λ _, total_pixels - default_area) <$> exp |}
          end
      end
  end.

Definition main : cell → Q → Q → outcome := main_with source_schedule.
End Expansion.
End Program.

(** The grid of the two scenarios of the specification. *)
Definition bowl : ndarray Q :=
  [[10; 10; 10]; [10; 5; 10]; [10; 10; 10]]%Q.

(** A single row rising by one per cell. *)
Definition stairs : ndarray Q := [[0; 1; 2; 3]]%Q.

(** The ramp of the specification, falling towards its last cell. *)
Definition ramp : ndarray Q := [[20; 15; 10; 5; 0]]%Q.

(** A grid of one elevation throughout. *)
Definition plateau : ndarray Q := [[7; 7; 7]; [7; 7; 7]]%Q.

(** Two cells one unit in the last place apart: 1 and 1 + 2^-52. *)
Definition hairline : ndarray Q :=
  [[1; 4503599627370497 # 4503599627370496]]%Q.

(** The double written [1.2e-16]. *)
Definition tiny_flood_level : Q :=
  4867778304876401 # 40564819207303340847894502572032.

(** The double written [0.1]. *)
Definition tenth : Q := 3602879701896397 # 36028797018963968.

(** Two cells of single precision: 1 and the single nearest to 1.2. *)
Definition single_step : ndarray Q := [[1; 10066330 # 8388608]]%Q.

(** The double written [0.2]. *)
Definition fifth : Q := 3602879701896397 # 18014398509481984.


(** ** Vocabulary of the specification *)

(** 1 when the cell value satisfies [P], else 0. *)
Definition indicator (P : Z → Prop) `{!∀ x, Decision (P x)} (x : Z) : nat :=
  if decide (P x) then 1%nat else 0%nat.

(** [q] is one of the eight cells around [p]. *)
Definition adjacent8 (p q : cell) : Prop :=
  Z.max (Z.abs (q.1 - p.1)) (Z.abs (q.2 - p.2)) = 1.

(** The index pairs of a grid, row by row. *)
Definition cells {A : Type} (a : ndarray A) : list cell :=
  r ← seqZ 0 (height a); (λ c, (r, c)) <$> seqZ 0 (width a).

(** Iterating over a set visits every element exactly once. *)
Definition visits_each_once (order : gset cell → list cell) : Prop :=
  ∀ s, order s ≡ₚ elements s.

(** The cell an entry of the ghost log was written to. *)
Definition written (e : cell * Z * Z) : cell := e.1.1.

(** What a run produces for its consumers: the report without the ghost
    log. *)
Definition outputs (r : report) :=
  (mask r, default_area r, boundary_cells r, expansion_cells r,
   pixel_area r, total_pixels r, total_area r, flood_expansion_area r).

(** A count times a non-negative real is not negative. *)
Definition scale_keeps_sign (ar : arith) : Prop :=
  ∀ (n : Z) (x : Q), 0 ≤ n → (0 <= x)%Q → (0 <= arith_scale ar n x)%Q.

Section Specification.
Variable dem : ndarray Q.
Variable nodata : option Q.
Variable ar : arith.

Definition in_bounds (p : cell) : Prop := inside (height dem) (width dem) p.

(** From flood level [fl1] to [fl2] the sum the run computes for a cell
    of the grid does not decrease. *)
Definition tolerance_grows (fl1 fl2 : Q) : Prop :=
  ∀ b, in_bounds b →
       (arith_add ar (elev dem b) fl1 <= arith_add ar (elev dem b) fl2)%Q.

(** The sum the run computes for a cell of the grid not higher than
    [outlet] does not exceed the sum it computes for [outlet]. *)
Definition sum_follows_elevation (outlet : cell) (flood_level : Q) : Prop :=
  ∀ b, in_bounds b → (elev dem b <= elev dem outlet)%Q →
       (arith_add ar (elev dem b) flood_level
        <= arith_add ar (elev dem outlet) flood_level)%Q.

(** The elevation of [p] equals the nodata sentinel. *)
Definition is_nodata (p : cell) : Prop :=
  ∃ nd, nodata = Some nd ∧ (elev dem p == nd)%Q.

(** One step of a chain: to an 8-neighbour in bounds, not nodata, not
    higher than the cell the step leaves. *)
Definition downhill_step (p q : cell) : Prop :=
  adjacent8 p q ∧ in_bounds q ∧ ¬ is_nodata q ∧ (elev dem q <= elev dem p)%Q.

(** The outlet and everything a chain of such steps reaches from it. *)
Inductive downhill (outlet : cell) : cell → Prop :=
  | downhill_outlet : downhill outlet outlet
  | downhill_next p q :
      downhill outlet p → downhill_step p q → downhill outlet q.

(** A [Default] cell with an in-bounds neighbour that is [Unvisited]. *)
Definition on_boundary (m : ndarray Z) (p : cell) : Prop :=
  aget 0 m p = Default ∧
  ∃ q, adjacent8 p q ∧ in_bounds q ∧ aget 0 m q = Unvisited.

(** Admission in the first pass, against the mask [m] and the boundary
    set [B] as they were when the expansion started. *)
Definition rim_admitted (flood_level : Q) (m : ndarray Z) (B : gset cell)
    (q : cell) : Prop :=
  aget 0 m q = Unvisited ∧ in_bounds q ∧ ¬ is_nodata q ∧
  ∃ b, b ∈ B ∧ adjacent8 b q ∧
       (elev dem q <= arith_add ar (elev dem b) flood_level)%Q.

(** Cells admitted in the first pass and everything a chain of untolerant
    steps through cells [Unvisited] in [m] reaches from them. *)
Inductive flooded (flood_level : Q) (m : ndarray Z) (B : gset cell)
    : cell → Prop :=
  | flooded_rim q : rim_admitted flood_level m B q → flooded flood_level m B q
  | flooded_next p q :
      flooded flood_level m B p → downhill_step p q →
      aget 0 m q = Unvisited → flooded flood_level m B q.

(** An entry of the ghost log overwrote an [Unvisited] cell of the grid
    that is not nodata with a non-zero value. *)
Definition entry_ok (e : cell * Z * Z) : Prop :=
  e.1.2 = Unvisited ∧ e.2 ≠ Unvisited ∧
  in_bounds (written e) ∧ ¬ is_nodata (written e).

(** *** Auxiliary notions for the proofs *)

(** [q] is the neighbour of [p] along one of the offsets [nbrs], lies in
    the grid, is not nodata, and is not higher than [limit]. *)
Definition candidate (nbrs : list cell) (limit : Q) (p q : cell) : Prop :=
  (∃ d, d ∈ nbrs ∧ q = (p.1 + d.1, p.2 + d.2)) ∧
  in_grid dem q = true ∧ has_data dem nodata q = true ∧
  (elev dem q <= limit)%Q.

(** [st'] is [st] after the cells [adm], all 0 before, were given [mark]
    one after the other. *)
Record marks (mark : Z) (st st' : state) (adm : list cell) : Prop := {
  mk_shape : has_shape (height dem) (width dem) (command_mask st');
  mk_nodup : NoDup adm;
  mk_fresh : ∀ q, q ∈ adm →
    aget 0 (command_mask st) q = 0 ∧ in_grid dem q = true ∧
    has_data dem nodata q = true;
  mk_mask : ∀ q, aget 0 (command_mask st') q
                 = if decide (q ∈ adm) then mark else aget 0 (command_mask st) q;
  mk_writes : writes st' = writes st ++ map (λ q, (q, 0, mark)) adm;
}.

(** Cells a fill reaches from its seeds: each step goes to a neighbour
    that was 0 in the mask [m0] the fill started from. *)
Inductive fill_reach (m0 : ndarray Z) (seeds : list cell) : cell → Prop :=
  | fill_seed s : s ∈ seeds → fill_reach m0 seeds s
  | fill_step p q :
      fill_reach m0 seeds p →
      candidate neighbors (elev dem p) p q →
      aget 0 m0 q = 0 →
      fill_reach m0 seeds q.

(** Invariant of the worklist loop. *)
Record fill_inv (mark : Z) (m0 : ndarray Z) (seeds : list cell)
    (st : state) (queue : list cell) : Prop := {
  fi_shape : has_shape (height dem) (width dem) (command_mask st);
  fi_queue : ∀ q, q ∈ queue → aget 0 (command_mask st) q = mark;
  fi_sound : ∀ q, aget 0 (command_mask st) q = mark → fill_reach m0 seeds q;
  fi_frame : ∀ q, aget 0 (command_mask st) q ≠ aget 0 m0 q →
                  aget 0 m0 q = 0 ∧ aget 0 (command_mask st) q = mark;
  fi_closed : ∀ p, aget 0 (command_mask st) p = mark → p ∉ queue →
              ∀ q, candidate neighbors (elev dem p) p q →
                   aget 0 (command_mask st) q ≠ 0;
}.

(** Invariant of the ghost log: well-formed entries, no cell written
    twice, and the written cells are exactly the non-zero ones. *)
Record trace_inv (st : state) : Prop := {
  ti_shape : has_shape (height dem) (width dem) (command_mask st);
  ti_entries : Forall entry_ok (writes st);
  ti_nodup : NoDup (written <$> writes st);
  ti_nonzero : ∀ p, p ∈ (written <$> writes st)
                    ↔ aget 0 (command_mask st) p ≠ 0;
}.
End Specification.

(** ** Vocabulary for the run as a whole *)

(** NumPy accepts the index pair [p] on an array of the shape of [dem]:
    each index lies in [-n, n) for the extent [n] of its axis. *)
Definition indexable (dem : ndarray Q) (p : cell) : Prop :=
  - height dem ≤ p.1 < height dem ∧ - width dem ≤ p.2 < width dem.

(** [p] is joined to [outlet] by 8-connected steps through cells of [m]
    that hold a non-zero value. *)
Inductive linked (m : ndarray Z) (outlet : cell) : cell → Prop :=
  | linked_outlet : linked m outlet outlet
  | linked_next p q :
      linked m outlet p → adjacent8 p q → aget 0 m q ≠ 0 →
      linked m outlet q.

Section GridSpecification.
Variable dem : ndarray Q.
Variable nodata : option Q.
Variable ar : arith.
Variable outlet : cell.

(** A cell of the default area with an in-bounds neighbour outside it. *)
Definition boundary_spec (b : cell) : Prop :=
  downhill dem nodata outlet b ∧
  ∃ q, adjacent8 b q ∧ in_bounds dem q ∧ ¬ downhill dem nodata outlet q.

(** A cell outside the default area, next to a cell [b] of it, and not
    higher than the sum the run computes for [b] and the flood level. *)
Definition rim_spec (flood_level : Q) (q : cell) : Prop :=
  ¬ downhill dem nodata outlet q ∧ in_bounds dem q ∧
  ¬ is_nodata dem nodata q ∧
  ∃ b, downhill dem nodata outlet b ∧ adjacent8 b q ∧
       (elev dem q <= arith_add ar (elev dem b) flood_level)%Q.

(** The rim and what untolerant downhill steps outside the default area
    reach from it. *)
Inductive flood_spec (flood_level : Q) : cell → Prop :=
  | flood_spec_rim q : rim_spec flood_level q → flood_spec flood_level q
  | flood_spec_next p q :
      flood_spec flood_level p → downhill_step dem nodata p q →
      ¬ downhill dem nodata outlet q → flood_spec flood_level q.

(** Every cell of the grid has the same elevation. *)
Definition flat : Prop :=
  ∀ p q, in_bounds dem p → in_bounds dem q → (elev dem p == elev dem q)%Q.

(** No cell of the grid holds the nodata sentinel. *)
Definition nodata_free : Prop :=
  ∀ p, in_bounds dem p → ¬ is_nodata dem nodata p.

(** A report that is what the grid, the outlet, the flood level and the
    scale terms determine, with no reference to how it was computed. *)
Record described (flood_level a e : Q) (r : report) : Prop := {
  d_shape : has_shape (height dem) (width dem) (mask r);
  d_values : ∀ p, aget 0 (mask r) p = Unvisited ∨ aget 0 (mask r) p = Default
                  ∨ aget 0 (mask r) p = FloodExpansion;
  d_default : ∀ p, aget 0 (mask r) p = Default ↔ downhill dem nodata outlet p;
  d_flood : ∀ p, aget 0 (mask r) p = FloodExpansion
                 ↔ (0 < flood_level)%Q ∧ flood_spec flood_level p;
  d_default_area :
    default_area r = Z.of_nat (count_if (λ x, x = Default) (mask r));
  d_boundary :
    match boundary_cells r with
    | Some B => (0 < flood_level)%Q ∧ ∀ b, b ∈ B ↔ boundary_spec b
    | None => (flood_level <= 0)%Q
    end;
  d_expansion :
    expansion_cells r
    = if Qlt_le_dec 0 flood_level
      then Some (Z.of_nat (count_if (λ x, x = FloodExpansion) (mask r)))
      else None;
  d_pixel_area : pixel_area r = Qabs (arith_mul ar a e);
  d_total_pixels :
    total_pixels r = Z.of_nat (count_if (λ x, x ≠ Unvisited) (mask r));
  d_total_area : total_area r = arith_scale ar (total_pixels r) (pixel_area r);
  d_flood_expansion_area :
    flood_expansion_area r
    = if Qlt_le_dec 0 flood_level
      then Some (Z.of_nat (count_if (λ x, x = FloodExpansion) (mask r)))
      else None;
}.
End GridSpecification.

(** ** The vector output *)

(** The ["properties"] of one GeoJSON feature (lines 196-201); the fields
    are the keys ["value"], ["flood_level"], ["area_sq_units"] and
    ["type"]. *)
Record feature_properties : Type := {
  prop_value : Z;
  prop_flood_level : Q;
  prop_area_sq_units : Q;
  prop_type : string;
}.

(** The properties built for a region of mask value [v].  The regions
    come from [shapes(command_mask, mask=command_mask > 0, ...)], which is
    external: it yields one geometry per connected region of cells that
    are selected by the mask and share one value [v]. *)
Definition properties_of (flood_level total_area : Q) (v : Z)
    : feature_properties :=
  {| prop_value := v;
     prop_flood_level := flood_level;
     prop_area_sq_units := total_area;
     prop_type := if v =? 1 then "default" else "flood_expansion" |}.

(** [mask=command_mask > 0]: the cells handed to the vectorisation. *)
Definition selected (m : ndarray Z) (p : cell) : Prop := 0 < aget 0 m p.
(** ** Arithmetic without rounding *)

Lemma exact_tolerance_grows (dem : ndarray Q) (fl1 fl2 : Q) :
  (fl1 <= fl2)%Q → tolerance_grows dem exact_arith fl1 fl2.
Proof. intros Hle b _. by apply Qplus_le_r. Qed.

Lemma exact_sum_follows_elevation (dem : ndarray Q) (outlet : cell)
    (flood_level : Q) :
  sum_follows_elevation dem exact_arith outlet flood_level.
Proof. intros b _ Hle. by apply Qplus_le_l. Qed.

Lemma exact_scale_keeps_sign : scale_keeps_sign exact_arith.
Proof.
  intros n x Hn Hx. apply Qmult_le_0_compat; [|done].
  unfold Qle. simpl. lia.
Qed.

(** ** Signs under rounding *)

Section Signs.
Context (prec emax : Z).
Import SpecFloat.

Lemma binary_round_aux_unsigned (m e : Z) (l : location) :
  IEEE754.unsigned (binary_round_aux prec emax false m e l).
Proof.
  unfold binary_round_aux.
  destruct (shr_fexp prec emax m e l) as [mrs' e'].
  destruct (shr_fexp prec emax _ e' loc_Exact) as [mrs'' e''].
  destruct (shr_m mrs''); [done| |done].
  by destruct (e'' <=? emax - prec)%Z.
Qed.

Lemma of_Z_unsigned (n : Z) :
  0 ≤ n → IEEE754.unsigned (IEEE754.of_Z prec emax n).
Proof.
  intros Hn. unfold IEEE754.of_Z, binary_normalize.
  destruct n as [|p|p]; [done| |lia].
  unfold binary_round. destruct (shl_align _ _ _) as [mz ez].
  apply binary_round_aux_unsigned.
Qed.

Lemma SFdiv_unsigned (x y : spec_float) :
  IEEE754.unsigned x → IEEE754.unsigned y →
  IEEE754.unsigned (SFdiv prec emax x y).
Proof.
  destruct x as [sx|sx| |sx mx ex], y as [sy|sy| |sy my ey]; simpl;
    try done; intros -> ->; try done.
  destruct (SFdiv_core_binary _ _ _ _ _ _) as [[mz ez] lz].
  apply binary_round_aux_unsigned.
Qed.

Lemma SFmul_unsigned (x y : spec_float) :
  IEEE754.unsigned x → IEEE754.unsigned y →
  IEEE754.unsigned (SFmul prec emax x y).
Proof.
  destruct x as [sx|sx| |sx mx ex], y as [sy|sy| |sy my ey]; simpl;
    try done; intros -> ->; try done.
  apply binary_round_aux_unsigned.
Qed.

Lemma of_Q_unsigned (x : Q) :
  (0 <= x)%Q → IEEE754.unsigned (IEEE754.of_Q prec emax x).
Proof.
  intros Hx. apply SFdiv_unsigned; apply of_Z_unsigned; [|done].
  unfold Qle in Hx. simpl in Hx. lia.
Qed.

Lemma to_Q_nonneg (x : spec_float) :
  IEEE754.unsigned x → (0 <= IEEE754.to_Q x)%Q.
Proof.
  destruct x as [s|s| |s m e]; simpl; try done. intros ->.
  destruct (0 <=? e)%Z.
  - change 0%Q with (inject_Z 0). rewrite <- Zle_Qle.
    apply Z.mul_nonneg_nonneg; [done|]. apply Z.pow_nonneg. lia.
  - done.
Qed.

(** A count times a non-negative real does not round to a negative
    number. *)
Lemma ieee_scale_nonneg (n : Z) (x : Q) :
  0 ≤ n → (0 <= x)%Q → (0 <= IEEE754.scale prec emax n x)%Q.
Proof.
  intros Hn Hx. apply to_Q_nonneg, SFmul_unsigned;
    [by apply of_Z_unsigned|by apply of_Q_unsigned].
Qed.
End Signs.

Lemma binary64_scale_keeps_sign : scale_keeps_sign binary64.
Proof. intros n x. apply ieee_scale_nonneg. Qed.

Lemma float32_raster_scale_keeps_sign : scale_keeps_sign float32_raster.
Proof. intros n x. apply ieee_scale_nonneg. Qed.

(** ** The cells of a grid *)

Lemma elem_of_cells {A : Type} (a : ndarray A) (p : cell) :
  p ∈ cells a ↔ inside (height a) (width a) p.
Proof.
  unfold cells, inside. rewrite list_elem_of_bind. split.
  - intros (r & Hp & Hr). apply list_elem_of_fmap in Hp as (c & -> & Hc).
    apply elem_of_seqZ in Hr, Hc. simpl. lia.
  - intros [Hr Hc]. exists p.1. split.
    + apply list_elem_of_fmap. exists p.2. split; [by destruct p|].
      apply elem_of_seqZ. lia.
    + apply elem_of_seqZ. lia.
Qed.

(** A test that passes on every index pair holds of every cell of the
    grid. *)
Lemma forall_cells (dem : ndarray Q) (test : cell → bool) :
  forallb test (cells dem) = true → ∀ p, in_bounds dem p → test p = true.
Proof.
  intros Hall p Hp. rewrite forallb_forall in Hall. apply Hall.
  by apply list_elem_of_In, elem_of_cells.
Qed.

(** ** Facts about arrays *)

Section ArrayFacts.
Context {A : Type}.
Implicit Types (a : ndarray A) (p q : cell) (v d x : A).

Lemma full_shape h w x : 0 ≤ h → 0 ≤ w → has_shape h w (full h w x).
Proof.
  intros Hh Hw. split.
  - unfold full. rewrite length_replicate. lia.
  - apply Forall_replicate. rewrite length_replicate. lia.
Qed.

Lemma aget_full d h w x p : inside h w p → aget d (full h w x) p = x.
Proof.
  intros [[H1 H2] [H3 H4]]. unfold aget, full.
  replace (0 <=? p.1) with true by lia. replace (0 <=? p.2) with true by lia.
  cbn [andb]. rewrite lookup_replicate_2 by lia. cbn [mbind option_bind].
  rewrite lookup_replicate_2 by lia. done.
Qed.

Lemma aset_shape h w a p v : has_shape h w a → has_shape h w (aset a p v).
Proof.
  intros [Hl Hr]. unfold aset. destruct (_ && _); [|done]. split.
  - by rewrite length_alter.
  - apply Forall_alter; [done|]. intros row _ Hrow.
    rewrite Forall_lookup in Hr. rewrite length_insert. eauto.
Qed.

Lemma aget_aset_eq d h w a p v :
  has_shape h w a → inside h w p → aget d (aset a p v) p = v.
Proof.
  intros [Hl Hr] [[H1 H2] [H3 H4]]. unfold aget, aset.
  replace (0 <=? p.1) with true by lia. replace (0 <=? p.2) with true by lia.
  simpl. rewrite list_lookup_alter_eq.
  destruct (lookup_lt_is_Some_2 a (Z.to_nat p.1)) as [row Hrow]; [lia|].
  rewrite Hrow. simpl.
  rewrite Forall_lookup in Hr. specialize (Hr _ _ Hrow).
  rewrite list_lookup_insert_eq by lia. done.
Qed.

Lemma aget_aset_ne d a p q v : p ≠ q → aget d (aset a p v) q = aget d a q.
Proof.
  intros Hne. unfold aget, aset.
  destruct (0 <=? q.1) eqn:Hq1, (0 <=? q.2) eqn:Hq2; simpl; try done.
  destruct (0 <=? p.1) eqn:Hp1, (0 <=? p.2) eqn:Hp2; simpl; try done.
  destruct (decide (Z.to_nat p.1 = Z.to_nat q.1)) as [Heq|Hneq].
  - rewrite Heq, list_lookup_alter_eq.
    destruct (a !! Z.to_nat q.1) as [row|]; simpl; [|done].
    rewrite list_lookup_insert_ne; [done|].
    intros Hc. apply Hne. destruct p, q; simpl in *. f_equal; lia.
  - by rewrite list_lookup_alter_ne.
Qed.

(** Two arrays of one shape that agree on every position are equal. *)
Lemma ndarray_ext d h w a1 a2 :
  has_shape h w a1 → has_shape h w a2 →
  (∀ p, inside h w p → aget d a1 p = aget d a2 p) → a1 = a2.
Proof.
  intros [Hl1 Hr1] [Hl2 Hr2] Hext. apply list_eq. intros i.
  destruct (decide (i < length a1)%nat) as [Hi|Hi].
  - destruct (lookup_lt_is_Some_2 a1 i) as [r1 Hr1i]; [done|].
    destruct (lookup_lt_is_Some_2 a2 i) as [r2 Hr2i]; [lia|].
    rewrite Hr1i, Hr2i. f_equal. apply list_eq. intros j.
    rewrite Forall_lookup in Hr1. rewrite Forall_lookup in Hr2.
    pose proof (Hr1 _ _ Hr1i) as Hw1. pose proof (Hr2 _ _ Hr2i) as Hw2.
    destruct (decide (j < length r1)%nat) as [Hj|Hj].
    + destruct (lookup_lt_is_Some_2 r1 j) as [x1 Hx1]; [done|].
      destruct (lookup_lt_is_Some_2 r2 j) as [x2 Hx2]; [lia|].
      specialize (Hext (Z.of_nat i, Z.of_nat j)).
      unfold aget, inside in Hext. simpl in Hext.
      replace (0 <=? Z.of_nat i) with true in Hext by lia.
      replace (0 <=? Z.of_nat j) with true in Hext by lia.
      rewrite !Nat2Z.id in Hext. rewrite Hr1i, Hr2i in Hext. simpl in Hext.
      rewrite Hx1, Hx2 in Hext. simpl in Hext.
      rewrite Hx1, Hx2. f_equal. apply Hext. lia.
    + rewrite (lookup_ge_None_2 r1), (lookup_ge_None_2 r2) by lia. done.
  - rewrite (lookup_ge_None_2 a1), (lookup_ge_None_2 a2) by lia. done.
Qed.
End ArrayFacts.
(** ** Counting cells *)

Section Counting.
Context (P : Z → Prop) `{!∀ x, Decision (P x)}.

Lemma filter_insert_length (row : list Z) j v x :
  row !! j = Some x →
  (length (filter P (<[j:=v]> row)) + indicator P x
   = length (filter P row) + indicator P v)%nat.
Proof.
  revert j. induction row as [|y row IH]; intros [|j] Hj; simplify_eq/=.
  - rewrite !filter_cons. unfold indicator.
    repeat case_decide; simpl; lia.
  - specialize (IH _ Hj). rewrite !filter_cons.
    case_decide; simpl; lia.
Qed.

Lemma count_if_alter (a : ndarray Z) i j v row x :
  a !! i = Some row → row !! j = Some x →
  (count_if P (alter (λ r, <[j:=v]> r) i a) + indicator P x
   = count_if P a + indicator P v)%nat.
Proof.
  unfold count_if. revert i.
  induction a as [|r a IH]; intros [|i] Hi Hj; simplify_eq/=.
  - rewrite !filter_app, !length_app.
    pose proof (filter_insert_length row j v x Hj). lia.
  - specialize (IH _ Hi Hj). rewrite !filter_app, !length_app. lia.
Qed.

Lemma count_if_aset h w (a : ndarray Z) p v :
  has_shape h w a → inside h w p →
  (count_if P (aset a p v) + indicator P (aget 0%Z a p)
   = count_if P a + indicator P v)%nat.
Proof.
  intros [Hl Hr] [[H1 H2] [H3 H4]]. unfold aset, aget.
  replace (0 <=? p.1) with true by lia. replace (0 <=? p.2) with true by lia.
  cbn [andb].
  destruct (lookup_lt_is_Some_2 a (Z.to_nat p.1)) as [row Hrow]; [lia|].
  rewrite Forall_lookup in Hr. pose proof (Hr _ _ Hrow) as Hlen.
  destruct (lookup_lt_is_Some_2 row (Z.to_nat p.2)) as [x Hx]; [lia|].
  rewrite Hrow. cbn [mbind option_bind]. rewrite Hx. cbn [default].
  by apply count_if_alter with row.
Qed.
End Counting.

Lemma count0_aset h w (a : ndarray Z) p v :
  has_shape h w a → inside h w p → aget 0 a p = 0 → v ≠ 0 →
  (count0 (aset a p v) + 1 = count0 a)%nat.
Proof.
  intros Hs Hp H0 Hv. unfold count0.
  pose proof (count_if_aset (λ x, x = 0) h w a p v Hs Hp) as Hc.
  unfold indicator in Hc. rewrite H0 in Hc.
  rewrite decide_True in Hc by done. rewrite decide_False in Hc by done. lia.
Qed.

(** ** The neighbour loop *)

Section Facts.
Context (dem : ndarray Q) (nodata : option Q).
Local Abbreviation h := (height dem).
Local Abbreviation w := (width dem).

Lemma in_grid_inside p : in_grid dem p = true ↔ inside h w p.
Proof. unfold in_grid, inside. rewrite !andb_true_iff. lia. Qed.

Lemma aget_aset (a : ndarray Z) p v q :
  has_shape h w a → in_grid dem p = true →
  aget 0 (aset a p v) q = if decide (q = p) then v else aget 0 a q.
Proof.
  intros Hs Hp. apply in_grid_inside in Hp. case_decide as Hq.
  - subst q. by eapply aget_aset_eq.
  - by apply aget_aset_ne.
Qed.

Lemma candidate_cons d nbrs limit p q :
  candidate dem nodata (d :: nbrs) limit p q ↔
  (q = (p.1 + d.1, p.2 + d.2) ∧ in_grid dem q = true ∧
   has_data dem nodata q = true ∧ (elev dem q <= limit)%Q)
  ∨ candidate dem nodata nbrs limit p q.
Proof.
  unfold candidate. split.
  - intros [(d' & Hd & Hq) Hrest]. apply elem_of_cons in Hd as [->|Hd].
    + by left.
    + right. split; [eauto|done].
  - intros [[Hq Hrest]|[(d' & Hd & Hq) Hrest]].
    + split; [|done]. exists d. split; [left|done].
    + split; [|done]. exists d'. split; [by right|done].
Qed.

Lemma candidate_nil limit p q : ¬ candidate dem nodata [] limit p q.
Proof. intros [(d & Hd & _) _]. by apply elem_of_nil in Hd. Qed.

Lemma admits_spec limit (m : ndarray Z) q :
  admits dem nodata limit m q = true ↔
  in_grid dem q = true ∧ aget 0 m q = 0 ∧ has_data dem nodata q = true ∧
  (elev dem q <= limit)%Q.
Proof.
  unfold admits. rewrite !andb_true_iff, Z.eqb_eq, Qle_bool_iff. tauto.
Qed.

(** Complete description of one neighbour loop. *)
Lemma scan_spec nbrs mark limit p st st' new :
  mark ≠ 0 → has_shape h w (command_mask st) →
  scan dem nodata nbrs mark limit p st = (st', new) →
  has_shape h w (command_mask st') ∧
  NoDup new ∧
  (∀ q, q ∈ new ↔
        aget 0 (command_mask st) q = 0 ∧ candidate dem nodata nbrs limit p q) ∧
  (∀ q, aget 0 (command_mask st') q
        = if decide (q ∈ new) then mark else aget 0 (command_mask st) q) ∧
  writes st' = writes st ++ map (λ q, (q, 0, mark)) new ∧
  (count0 (command_mask st') + length new = count0 (command_mask st))%nat.
Proof.
  intros Hmark. revert st st' new.
  induction nbrs as [|[dr dc] nbrs IH]; intros st st' new Hs Hscan.
  - simpl in Hscan. simplify_eq. split_and!; try done.
    + constructor.
    + intros q. split; [by intros ?%elem_of_nil|].
      intros [_ Hc]. by apply candidate_nil in Hc.
    + by rewrite app_nil_r.
  - simpl in Hscan.
    set (q0 := (p.1 + dr, p.2 + dc)) in *.
    destruct (admits dem nodata limit (command_mask st) q0) eqn:Hadm.
    + destruct (scan dem nodata nbrs mark limit p (assign st q0 mark))
        as [st1 new1] eqn:Hrec.
      simplify_eq.
      apply admits_spec in Hadm as (Hin & H0 & Hdata & Hle).
      assert (has_shape h w (command_mask (assign st q0 mark))) as Hs1
        by by apply aset_shape.
      destruct (IH _ _ _ Hs1 Hrec) as (Hs' & Hnd & Hmem & Hget & Hw & Hcnt).
      simpl in Hmem, Hget, Hw, Hcnt.
      assert (q0 ∉ new1) as Hq0.
      { intros [Hz _]%Hmem. rewrite aget_aset in Hz by done.
        by rewrite decide_True in Hz. }
      split_and!.
      * done.
      * by constructor.
      * intros q. rewrite elem_of_cons, Hmem, aget_aset by done.
        rewrite candidate_cons. simpl. fold q0. clearbody q0.
        case_decide as Hq; [subst q|]; intuition congruence.
      * intros q. rewrite Hget, aget_aset by done.
        destruct (decide (q = q0)) as [->|Hne].
        -- rewrite decide_False by done.
           rewrite decide_True by left. done.
        -- destruct (decide (q ∈ new1)).
           ++ rewrite decide_True by by right. done.
           ++ rewrite decide_False; [done|].
              rewrite elem_of_cons. intuition congruence.
      * rewrite Hw, H0. simpl. by rewrite <- app_assoc.
      * apply in_grid_inside in Hin.
        pose proof (count0_aset h w _ q0 mark Hs Hin H0 Hmark).
        simpl. lia.
    + destruct (IH _ _ _ Hs Hscan) as (Hs' & Hnd & Hmem & Hget & Hw & Hcnt).
      split_and!; try done.
      intros q. rewrite Hmem, candidate_cons. simpl. fold q0.
      split; [tauto|].
      intros [Hz [(-> & Hin & Hdata & Hle)|Hc]]; [|done].
      exfalso. apply not_true_iff_false in Hadm. apply Hadm.
      by apply admits_spec.
Qed.

(** ** The worklist loop *)

Section Worklist.
Context (sch : schedule) (Hfair : fair sch).
Context (mark : Z) (Hmark : mark ≠ 0).

Lemma candidate_fair limit p q :
  candidate dem nodata (sched_nbrs sch) limit p q ↔ candidate dem nodata neighbors limit p q.
Proof.
  unfold candidate. split; intros [(d & Hd & Hq) Hrest]; (split; [|done]);
    exists d; (split; [|done]); by apply (fair_nbrs sch Hfair).
Qed.

(** The loop ends within the fuel given by its measure. *)
Lemma flood_fill_total fuel st queue :
  has_shape h w (command_mask st) →
  (measure st queue ≤ fuel)%nat →
  ∃ st' adm, flood_fill dem nodata sch mark fuel st queue = Some (st', adm).
Proof.
  revert st queue. induction fuel as [|fuel IH]; intros st queue Hs Hm.
  - simpl. destruct (sched_pop sch queue) as [[p rest]|] eqn:Hpop; [|eauto].
    apply (fair_pop_some sch Hfair) in Hpop.
    apply Permutation_length in Hpop. unfold measure in Hm. simpl in Hpop. lia.
  - simpl. destruct (sched_pop sch queue) as [[p rest]|] eqn:Hpop; [|eauto].
    destruct (scan dem nodata (sched_nbrs sch) mark (elev dem p) p st)
      as [st1 new] eqn:Hscan.
    destruct (scan_spec _ _ _ _ _ _ _ Hmark Hs Hscan)
      as (Hs1 & _ & _ & _ & _ & Hcnt).
    apply (fair_pop_some sch Hfair) in Hpop.
    apply Permutation_length in Hpop. simpl in Hpop.
    destruct (IH st1 (rest ++ new) Hs1) as (st' & adm & ->).
    { unfold measure in *. rewrite length_app. lia. }
    simpl. eauto.
Qed.

(** Invariant rule: what every iteration preserves holds at the end,
    with an empty queue. *)
Lemma flood_fill_inv (I : state → list cell → Prop) :
  (∀ st queue p rest st' new,
      I st queue → sched_pop sch queue = Some (p, rest) →
      scan dem nodata (sched_nbrs sch) mark (elev dem p) p st = (st', new) →
      I st' (rest ++ new)) →
  ∀ fuel st queue st' adm,
    I st queue →
    flood_fill dem nodata sch mark fuel st queue = Some (st', adm) →
    I st' [].
Proof.
  intros Hstep fuel. induction fuel as [|fuel IH];
    intros st queue st' adm HI Hrun; simpl in Hrun;
    destruct (sched_pop sch queue) as [[p rest]|] eqn:Hpop.
  - done.
  - apply (fair_pop_none sch Hfair) in Hpop. by simplify_eq.
  - destruct (scan dem nodata (sched_nbrs sch) mark (elev dem p) p st)
      as [st1 new] eqn:Hscan.
    destruct (flood_fill dem nodata sch mark fuel st1 (rest ++ new))
      as [[st2 more]|] eqn:Hrec; simplify_eq/=.
    eapply IH; [|done]. eauto.
  - apply (fair_pop_none sch Hfair) in Hpop. by simplify_eq.
Qed.

(** *** What the loop computes *)

Lemma fill_inv_init st seeds :
  has_shape h w (command_mask st) →
  (∀ q, q ∈ seeds ↔ aget 0 (command_mask st) q = mark) →
  fill_inv dem nodata mark (command_mask st) seeds st seeds.
Proof.
  intros Hs Hseeds. split; try done.
  - intros q. by rewrite Hseeds.
  - intros q Hq. apply fill_seed. by apply Hseeds.
  - intros p Hp Hnp. by apply Hseeds in Hp.
Qed.

Lemma fill_inv_step m0 seeds st queue p rest st' new :
  fill_inv dem nodata mark m0 seeds st queue →
  sched_pop sch queue = Some (p, rest) →
  scan dem nodata (sched_nbrs sch) mark (elev dem p) p st = (st', new) →
  fill_inv dem nodata mark m0 seeds st' (rest ++ new).
Proof.
  intros [Hs Hq Hsound Hframe Hclosed] Hpop Hscan.
  apply (fair_pop_some sch Hfair) in Hpop.
  destruct (scan_spec _ _ _ _ _ _ _ Hmark Hs Hscan)
    as (Hs' & _ & Hmem & Hget & _ & _).
  assert (∀ q, q ∈ queue ↔ q = p ∨ q ∈ rest) as Hqueue.
  { intros q. by rewrite Hpop, elem_of_cons. }
  assert (∀ q, aget 0 (command_mask st) q = 0 → aget 0 m0 q = 0) as Hzero.
  { intros q Hz. destruct (decide (aget 0 (command_mask st) q = aget 0 m0 q))
      as [<-|Hne]; [done|]. apply Hframe in Hne. lia. }
  split.
  - done.
  - intros q [Hin|Hin]%elem_of_app; rewrite Hget; case_decide; try done.
    apply Hq, Hqueue. by right.
  - intros q. rewrite Hget. case_decide as Hin; [|by auto].
    intros _. apply Hmem in Hin as [Hz Hc].
    apply fill_step with p.
    + apply Hsound, Hq, Hqueue. by left.
    + by apply candidate_fair.
    + by apply Hzero.
  - intros q. rewrite Hget. case_decide as Hin; [|by auto].
    intros _. apply Hmem in Hin as [Hz Hc]. split; [by apply Hzero|done].
  - intros u Hu Hnu q Hc.
    rewrite elem_of_app in Hnu.
    rewrite Hget in Hu. rewrite decide_False in Hu by tauto.
    rewrite Hget. case_decide as Hin; [done|].
    destruct (decide (u = p)) as [->|Hup].
    + intros Hz. apply Hin, Hmem. split; [done|by apply candidate_fair].
    + apply (Hclosed u Hu); [|done]. rewrite Hqueue. tauto.
Qed.

(** The result of a fill whose seeds are exactly the cells that
    already carry the mark. *)
Theorem flood_fill_correct fuel st seeds st' adm :
  has_shape h w (command_mask st) →
  (∀ q, q ∈ seeds ↔ aget 0 (command_mask st) q = mark) →
  flood_fill dem nodata sch mark fuel st seeds = Some (st', adm) →
  has_shape h w (command_mask st') ∧
  (∀ q, aget 0 (command_mask st') q = mark
        ↔ fill_reach dem nodata (command_mask st) seeds q) ∧
  (∀ q, aget 0 (command_mask st') q ≠ mark →
        aget 0 (command_mask st') q = aget 0 (command_mask st) q).
Proof.
  intros Hs Hseeds Hrun.
  pose proof (flood_fill_inv (fill_inv dem nodata mark (command_mask st) seeds)
                (fill_inv_step _ _) _ _ _ _ _
                (fill_inv_init _ _ Hs Hseeds) Hrun)
    as [Hs' _ Hsound Hframe Hclosed].
  split_and!; [done| |].
  - intros q. split; [apply Hsound|].
    induction 1 as [s Hin|p q Hp IH Hc Hz].
    + apply Hseeds in Hin.
      destruct (decide (aget 0 (command_mask st') s
                        = aget 0 (command_mask st) s)) as [Heq|Hne];
        [congruence|]. apply Hframe in Hne. lia.
    + assert (aget 0 (command_mask st') q ≠ 0) as Hnz.
      { apply (Hclosed p IH); [|done]. apply not_elem_of_nil. }
      apply Hframe. congruence.
  - intros q Hq.
    destruct (decide (aget 0 (command_mask st') q
                      = aget 0 (command_mask st) q)) as [Heq|Hne]; [done|].
    apply Hframe in Hne. tauto.
Qed.
End Worklist.
End Facts.

(** ** Marking fresh cells *)

Section Marks.
Context (dem : ndarray Q) (nodata : option Q).
Local Abbreviation h := (height dem).
Local Abbreviation w := (width dem).

Lemma has_data_spec p :
  has_data dem nodata p = true ↔ ¬ is_nodata dem nodata p.
Proof.
  unfold has_data, is_nodata. destruct nodata as [nd|].
  - rewrite negb_true_iff, <- not_true_iff_false, Qeq_bool_iff.
    split.
    + intros Hne (nd' & Heq & Hq). by simplify_eq.
    + intros Hno Hq. apply Hno. eauto.
  - split; [|done]. intros _ (nd & Heq & _). done.
Qed.

Context (mark : Z) (Hmark : mark ≠ 0).

Lemma marks_refl st :
  has_shape h w (command_mask st) → marks dem nodata mark st st [].
Proof.
  intros Hs. split; try done.
  - constructor.
  - by intros q ?%elem_of_nil.
  - simpl. by rewrite app_nil_r.
Qed.

Lemma marks_trans st st1 st2 l1 l2 :
  marks dem nodata mark st st1 l1 → marks dem nodata mark st1 st2 l2 →
  marks dem nodata mark st st2 (l1 ++ l2).
Proof.
  intros [Hs1 Hn1 Hf1 Hm1 Hw1] [Hs2 Hn2 Hf2 Hm2 Hw2].
  assert (∀ q, q ∈ l2 → (q ∉ l1) ∧ aget 0 (command_mask st) q = 0) as Hdisj.
  { intros q [Hz _]%Hf2. rewrite Hm1 in Hz. by case_decide. }
  split.
  - done.
  - apply NoDup_app. split_and!; [done| |done].
    intros q Hq1 Hq2. by apply Hdisj in Hq2 as [? _].
  - intros q [Hq|Hq]%elem_of_app; [by apply Hf1|].
    destruct (Hf2 q Hq) as (_ & ? & ?). by destruct (Hdisj q Hq).
  - intros q. rewrite Hm2, Hm1.
    destruct (decide (q ∈ l1)), (decide (q ∈ l2));
      (rewrite decide_True by (rewrite elem_of_app; tauto))
      || (rewrite decide_False by (rewrite elem_of_app; tauto)); done.
  - rewrite Hw2, Hw1, map_app. by rewrite <- app_assoc.
Qed.

Lemma scan_marks nbrs limit p st st' new :
  has_shape h w (command_mask st) →
  scan dem nodata nbrs mark limit p st = (st', new) →
  marks dem nodata mark st st' new.
Proof.
  intros Hs Hscan.
  destruct (scan_spec _ _ _ _ _ _ _ _ _ Hmark Hs Hscan)
    as (Hs' & Hnd & Hmem & Hget & Hw & _).
  split; try done.
  intros q [Hz (_ & ? & ? & _)]%Hmem. done.
Qed.

Lemma assign_marks st p :
  has_shape h w (command_mask st) →
  in_grid dem p = true → has_data dem nodata p = true →
  aget 0 (command_mask st) p = 0 →
  marks dem nodata mark st (assign st p mark) [p].
Proof.
  intros Hs Hin Hdata Hz. split.
  - by apply aset_shape.
  - apply NoDup_singleton.
  - by intros q ->%list_elem_of_singleton.
  - intros q. simpl. rewrite (aget_aset dem) by done.
    destruct (decide (q = p)) as [->|Hne].
    + rewrite decide_True; [done|]. by apply list_elem_of_singleton.
    + rewrite decide_False; [done|]. by rewrite list_elem_of_singleton.
  - simpl. by rewrite Hz.
Qed.

(** The first marked cell can be split off. *)
Lemma marks_cons_inv st st' q adm :
  has_shape h w (command_mask st) →
  marks dem nodata mark st st' (q :: adm) →
  marks dem nodata mark (assign st q mark) st' adm.
Proof.
  intros Hs [Hs' Hnd Hf Hm Hw].
  apply NoDup_cons in Hnd as [Hq Hnd].
  destruct (Hf q) as (Hz & Hin & Hdata); [left|].
  split.
  - done.
  - done.
  - intros q' Hq'. destruct (Hf q') as (Hz' & ? & ?); [by right|].
    split_and!; try done. simpl. rewrite (aget_aset dem) by done.
    rewrite decide_False; [done|]. by intros ->.
  - intros q'. rewrite Hm. simpl. rewrite (aget_aset dem) by done.
    destruct (decide (q' = q)) as [->|Hne].
    + rewrite decide_True by left. by rewrite decide_False.
    + destruct (decide (q' ∈ adm)).
      * rewrite decide_True by by right. done.
      * rewrite decide_False; [done|]. rewrite elem_of_cons. tauto.
  - rewrite Hw. simpl. rewrite Hz. by rewrite <- app_assoc.
Qed.

(** Counting after marking: every marked cell moves from the cells that
    hold 0 to the cells that hold [mark]. *)
Lemma marks_count (P : Z → Prop) `{!∀ x, Decision (P x)} adm : ∀ st st',
  has_shape h w (command_mask st) →
  marks dem nodata mark st st' adm →
  (count_if P (command_mask st') + length adm * indicator P 0%Z
   = count_if P (command_mask st) + length adm * indicator P mark)%nat.
Proof.
  induction adm as [|q adm IH]; intros st st' Hs Hmk.
  - destruct Hmk as [Hs' _ _ Hm _].
    assert (command_mask st' = command_mask st) as ->; [|simpl; lia].
    apply (ndarray_ext 0 h w); [done..|].
    intros p _. rewrite Hm. rewrite decide_False; [done|]. apply not_elem_of_nil.
  - pose proof (marks_cons_inv _ _ _ _ Hs Hmk) as Hmk'.
    destruct (mk_fresh _ _ _ _ _ _ Hmk q) as (Hz & Hin & _); [left|].
    apply IH in Hmk'; [|by apply aset_shape].
    apply in_grid_inside in Hin.
    pose proof (count_if_aset P h w _ q mark Hs Hin) as Hc.
    rewrite Hz in Hc. simpl in *. lia.
Qed.

(** The invariant of the ghost log survives marking. *)
Lemma marks_trace_inv st st' adm :
  trace_inv dem nodata st → marks dem nodata mark st st' adm →
  trace_inv dem nodata st'.
Proof.
  intros [Hs He Hnd Hnz] [Hs' Hn Hf Hm Hw].
  assert (written <$> map (λ q : cell, (q, 0, mark)) adm = adm) as Hadm.
  { clear. induction adm as [|q adm IH]; [done|]. simpl. by f_equal. }
  split.
  - done.
  - rewrite Hw. apply Forall_app. split; [done|].
    apply Forall_forall. intros e (q & <- & Hq)%list_elem_of_In%in_map_iff.
    apply list_elem_of_In in Hq.
    destruct (Hf q Hq) as (_ & Hin & Hdata).
    split_and!; try done.
    + by apply in_grid_inside.
    + by apply has_data_spec.
  - rewrite Hw, fmap_app, Hadm. apply NoDup_app. split_and!; [done| |done].
    intros q Hq1 Hq2. apply Hnz in Hq1. by destruct (Hf q Hq2) as (? & _).
  - intros p. rewrite Hw, fmap_app, Hadm, elem_of_app, Hm, Hnz.
    case_decide as Hp; [tauto|]. tauto.
Qed.
End Marks.

(** ** Step 1: the default command area *)

Lemma neighbors_adjacent8 p q :
  (∃ d, d ∈ neighbors ∧ q = (p.1 + d.1, p.2 + d.2)) ↔ adjacent8 p q.
Proof.
  unfold adjacent8. split.
  - intros (d & Hd & ->). unfold neighbors in Hd.
    repeat (apply elem_of_cons in Hd as [->|Hd]; [simpl; lia|]).
    by apply elem_of_nil in Hd.
  - intros Hadj. exists (q.1 - p.1, q.2 - p.2). split.
    + assert (q.1 - p.1 = -1 ∨ q.1 - p.1 = 0 ∨ q.1 - p.1 = 1) as Hr by lia.
      assert (q.2 - p.2 = -1 ∨ q.2 - p.2 = 0 ∨ q.2 - p.2 = 1) as Hc by lia.
      unfold neighbors.
      destruct Hr as [Hr|[Hr|Hr]], Hc as [Hc|[Hc|Hc]]; rewrite Hr, Hc;
        try (rewrite Hr, Hc in Hadj; simpl in Hadj; lia);
        repeat first [by apply list_elem_of_here | apply list_elem_of_further].
    + destruct q as [qr qc]. simpl. f_equal; lia.
Qed.

Lemma aget_full_any {A} (d : A) h w p : aget d (full h w d) p = d.
Proof.
  unfold aget, full. destruct (_ && _); [|done].
  destruct (replicate (Z.to_nat h) _ !! _) as [row|] eqn:Hrow; [|done].
  apply lookup_replicate in Hrow as [-> _]. cbn [mbind option_bind].
  destruct (replicate (Z.to_nat w) _ !! _) as [x|] eqn:Hx; [|done].
  by apply lookup_replicate in Hx as [-> _].
Qed.

Lemma count_if_full (P : Z → Prop) `{!∀ x, Decision (P x)} h w x :
  count_if P (full h w x) = (Z.to_nat h * Z.to_nat w * indicator P x)%nat.
Proof.
  assert (∀ k, length (filter P (replicate k x)) = (k * indicator P x)%nat)
    as Hrow.
  { intros k. induction k as [|k IHk]; [done|].
    simpl. rewrite filter_cons. revert IHk. unfold indicator.
    destruct (decide (P x)); simpl; lia. }
  unfold count_if, full.
  induction (Z.to_nat h) as [|n IH]; [done|].
  simpl. rewrite filter_app, length_app, IH, Hrow. lia.
Qed.

Section Delineation.
Context (dem : ndarray Q) (nodata : option Q).
Local Abbreviation h := (height dem).
Local Abbreviation w := (width dem).

Lemma candidate_downhill p q :
  candidate dem nodata neighbors (elev dem p) p q
  ↔ downhill_step dem nodata p q.
Proof.
  unfold candidate, downhill_step, in_bounds.
  rewrite neighbors_adjacent8, in_grid_inside, has_data_spec. tauto.
Qed.

Lemma blank_shape : has_shape h w (command_mask (blank dem)).
Proof. apply full_shape; unfold height, width; [lia|destruct dem; lia]. Qed.

Lemma blank_trace_inv : trace_inv dem nodata (blank dem).
Proof.
  split.
  - apply blank_shape.
  - constructor.
  - constructor.
  - intros p. simpl. rewrite aget_full_any. split; [by intros ?%elem_of_nil|done].
Qed.

(** A validated outlet lies in the grid and is not nodata. *)
Lemma check_outlet_ok outlet e :
  check_outlet dem nodata outlet = inr e →
  in_grid dem outlet = true ∧ has_data dem nodata outlet = true.
Proof.
  unfold check_outlet, has_data.
  destruct (getitem _ _ _); [|done].
  destruct (in_grid dem outlet); [|done]. simpl.
  destruct nodata as [nd|]; [|done].
  destruct (Qeq_bool _ _); done.
Qed.

(** Conversely, validation accepts every such outlet. *)
Lemma check_outlet_accepts outlet :
  in_grid dem outlet = true → has_data dem nodata outlet = true →
  check_outlet dem nodata outlet = inr (elev dem outlet).
Proof.
  intros Hin Hdata. unfold check_outlet, getitem, norm_index.
  pose proof Hin as Hin'. unfold in_grid in Hin'.
  rewrite !andb_true_iff in Hin'. destruct Hin' as [[[H1 H2] H3] H4].
  rewrite H1, H2, H3, H4. simpl. rewrite Hin. simpl.
  unfold has_data in Hdata. destruct nodata as [nd|]; [|by destruct outlet].
  apply negb_true_iff in Hdata. rewrite Hdata. by destruct outlet.
Qed.

Section Schedule.
Context (sch : schedule) (Hfair : fair sch).

Lemma flood_fill_marks mark fuel st queue st' adm :
  mark ≠ 0 → has_shape h w (command_mask st) →
  flood_fill dem nodata sch mark fuel st queue = Some (st', adm) →
  marks dem nodata mark st st' adm.
Proof.
  intros Hmark. revert st queue st' adm. induction fuel as [|fuel IH];
    intros st queue st' adm Hs Hrun; simpl in Hrun;
    destruct (sched_pop sch queue) as [[p rest]|] eqn:Hpop;
    simplify_eq/=; try by apply marks_refl.
  destruct (scan dem nodata (sched_nbrs sch) mark (elev dem p) p st)
    as [st1 new] eqn:Hscan.
  destruct (flood_fill dem nodata sch mark fuel st1 (rest ++ new))
    as [[st2 more]|] eqn:Hrec; simplify_eq/=.
  pose proof (scan_marks _ _ _ Hmark _ _ _ _ _ _ Hs Hscan) as Hmk.
  eapply marks_trans; [done..|].
  eapply IH; [|done]. by destruct Hmk.
Qed.

(** Step 1 ends, and marks exactly the cells a downhill chain reaches. *)
Lemma delineate_spec outlet :
  in_grid dem outlet = true → has_data dem nodata outlet = true →
  ∃ st adm,
    delineate dem nodata sch outlet = Some st ∧
    marks dem nodata Default (blank dem) st (outlet :: adm) ∧
    (∀ p, aget 0 (command_mask st) p = Default
          ↔ downhill dem nodata outlet p) ∧
    (∀ p, aget 0 (command_mask st) p = Unvisited
          ∨ aget 0 (command_mask st) p = Default).
Proof.
  intros Hin Hdata. unfold delineate.
  assert (Default ≠ 0) as Hmark by done.
  pose proof blank_shape as Hs0.
  pose proof (assign_marks dem nodata Default (blank dem) outlet Hs0 Hin Hdata)
    as Hmk0.
  specialize (Hmk0 (aget_full_any _ _ _ _)). fold (initial dem outlet) in Hmk0.
  assert (has_shape h w (command_mask (initial dem outlet))) as Hs1
    by by destruct Hmk0.
  assert (∀ q, aget 0 (command_mask (initial dem outlet)) q
               = if decide (q = outlet) then Default else 0) as Hinit.
  { intros q. unfold initial. simpl. rewrite (aget_aset dem) by done.
    case_decide; [done|]. apply aget_full_any. }
  destruct (flood_fill_total dem nodata sch Hfair Default Hmark
              (measure (initial dem outlet) [outlet]) (initial dem outlet)
              [outlet] Hs1) as (st & adm & Hrun); [done|].
  exists st, adm. rewrite Hrun. simpl. split; [done|].
  pose proof (flood_fill_marks _ _ _ _ _ _ Hmark Hs1 Hrun) as Hmk1.
  split.
  { change (outlet :: adm) with ([outlet] ++ adm). by eapply marks_trans. }
  assert (∀ q, q ∈ [outlet]
               ↔ aget 0 (command_mask (initial dem outlet)) q = Default)
    as Hseeds.
  { intros q. rewrite Hinit, list_elem_of_singleton. by case_decide. }
  destruct (flood_fill_correct dem nodata sch Hfair Default Hmark _ _ _
              _ _ Hs1 Hseeds Hrun) as (Hs' & Hreach & Hframe).
  split.
  - intros p. rewrite Hreach. split.
    + induction 1 as [s Hseed|p q _ IH Hc _].
      * apply list_elem_of_singleton in Hseed as ->. constructor.
      * apply downhill_next with p; [done|]. by apply candidate_downhill.
    + induction 1 as [|p q _ IH Hstep].
      * apply fill_seed. by apply list_elem_of_singleton.
      * destruct (decide (q = outlet)) as [->|Hne].
        -- apply fill_seed. by apply list_elem_of_singleton.
        -- apply fill_step with p; [done|by apply candidate_downhill|].
           rewrite Hinit. by rewrite decide_False.
  - intros p.
    destruct (decide (aget 0 (command_mask st) p = Default)) as [?|Hne];
      [by right|].
    apply Hframe in Hne. rewrite Hne, Hinit. case_decide; [by right|by left].
Qed.
End Schedule.
End Delineation.

(** ** Boundary detection *)

Section Boundary.
Context (dem : ndarray Q) (nodata : option Q).
Local Abbreviation h := (height dem).
Local Abbreviation w := (width dem).

Lemma aget_nonzero_inside (m : ndarray Z) p :
  has_shape h w m → aget 0 m p ≠ 0 → inside h w p.
Proof.
  intros [Hl Hr] Hnz. unfold aget in Hnz.
  destruct (0 <=? p.1) eqn:H1, (0 <=? p.2) eqn:H2; try done.
  simpl in Hnz.
  destruct (m !! Z.to_nat p.1) as [row|] eqn:Hrow; [|done].
  simpl in Hnz.
  destruct (row !! Z.to_nat p.2) as [x|] eqn:Hx; [|done].
  apply lookup_lt_Some in Hrow as Hlt1. apply lookup_lt_Some in Hx as Hlt2.
  rewrite Forall_lookup in Hr. specialize (Hr _ _ Hrow).
  unfold inside. lia.
Qed.

Lemma touches_unvisited_spec nbrs (m : ndarray Z) p :
  touches_unvisited dem nbrs m p = true ↔
  ∃ d, d ∈ nbrs ∧ in_grid dem (p.1 + d.1, p.2 + d.2) = true ∧
       aget 0 m (p.1 + d.1, p.2 + d.2) = 0.
Proof.
  induction nbrs as [|[dr dc] nbrs IH]; simpl.
  - split; [done|]. by intros (d & ?%elem_of_nil & _).
  - destruct (in_grid dem (p.1 + dr, p.2 + dc)
              && (aget 0 m (p.1 + dr, p.2 + dc) =? 0)) eqn:Htest.
    + split; [intros _|done]. exists (dr, dc).
      apply andb_true_iff in Htest as [? ?%Z.eqb_eq]. split; [left|done].
    + rewrite IH. split.
      * intros (d & Hd & Hrest). exists d. split; [by right|done].
      * intros (d & [->|Hd]%elem_of_cons & Hin & Hz); [|eauto].
        simpl in Hin, Hz. rewrite Hin, Hz in Htest. done.
Qed.

(** The two nested [for] loops collect exactly the cells that pass the
    test. *)
Lemma collect_spec (test : cell → bool) (rows cols : list Z) (p : cell) :
  ∀ acc : gset cell,
    p ∈ foldl (λ acc r,
               foldl (λ acc c, if test (r, c) then acc ∪ {[ (r, c) ]} else acc)
                     acc cols) acc rows
    ↔ p ∈ acc ∨ (p.1 ∈ rows ∧ p.2 ∈ cols ∧ test p = true).
Proof.
  assert (∀ r (acc : gset cell),
    p ∈ foldl (λ acc c, if test (r, c) then acc ∪ {[ (r, c) ]} else acc)
              acc cols
    ↔ p ∈ acc ∨ (p.1 = r ∧ p.2 ∈ cols ∧ test p = true)) as Hinner.
  { intros r. induction cols as [|c cols IH]; intros acc; simpl.
    - split; [by left|]. intros [?|(_ & ?%elem_of_nil & _)]; done.
    - rewrite IH. destruct (test (r, c)) eqn:Ht.
      + rewrite elem_of_union, elem_of_singleton, elem_of_cons.
        split.
        * intros [[?| ->]|(? & ? & ?)]; [by left|right|right]; simpl; auto.
        * intros [?|(Hr & [Hc|Hc] & Hp)]; [by left; left| |by right].
          left; right. destruct p; simpl in *. by subst.
      + rewrite elem_of_cons. split.
        * intros [?|(? & ? & ?)]; [by left|right]; auto.
        * intros [?|(Hr & [Hc|Hc] & Hp)]; [by left| |by right].
          destruct p; simpl in *. subst. congruence. }
  induction rows as [|r rows IH]; intros acc; simpl.
  - split; [by left|]. intros [?|(?%elem_of_nil & _)]; done.
  - rewrite IH, Hinner, elem_of_cons. split.
    + intros [[?|(? & ? & ?)]|(? & ? & ?)]; [by left|right|right]; auto.
    + intros [?|([Hr|Hr] & Hc & Hp)]; [by left; left|by left; right|by right].
Qed.

Lemma find_boundary_spec sch (m : ndarray Z) p :
  p ∈ find_boundary dem sch m ↔
  inside h w p ∧ aget 0 m p = 1 ∧
  touches_unvisited dem (sched_nbrs sch) m p = true.
Proof.
  unfold find_boundary.
  rewrite (collect_spec
    (λ p, (aget 0 m p =? 1) && touches_unvisited dem (sched_nbrs sch) m p)).
  rewrite !elem_of_seqZ, andb_true_iff, Z.eqb_eq. unfold inside.
  split.
  - intros [?%elem_of_empty|(? & ? & ? & ?)]; [done|]. split_and!; try done; lia.
  - intros ((? & ?) & ? & ?). right. split_and!; try done; lia.
Qed.

(** The set computed is the boundary of the specification. *)
Lemma find_boundary_on_boundary sch (m : ndarray Z) p :
  fair sch → has_shape h w m →
  p ∈ find_boundary dem sch m ↔ on_boundary dem m p.
Proof.
  intros Hfair Hs. rewrite find_boundary_spec, touches_unvisited_spec.
  unfold on_boundary, in_bounds, Default, Unvisited. split.
  - intros (_ & Hp & d & Hd & Hin & Hz). split; [done|].
    exists (p.1 + d.1, p.2 + d.2). split_and!; [|by apply in_grid_inside|done].
    apply neighbors_adjacent8. exists d. split; [|done].
    by apply (fair_nbrs sch Hfair).
  - intros (Hp & q & Hadj & Hin & Hz).
    apply neighbors_adjacent8 in Hadj as (d & Hd & ->). split_and!.
    + apply (aget_nonzero_inside m); [done|]. rewrite Hp. done.
    + done.
    + exists d. split_and!; [by apply (fair_nbrs sch Hfair)| |done].
      by apply in_grid_inside.
Qed.
End Boundary.

(** ** Step 2: flood-level expansion *)

Section ExpansionFacts.
Context (dem : ndarray Q) (nodata : option Q).
Context (ar : arith).
Context (order : gset cell → list cell) (Horder : visits_each_once order).
Context (flood_level : Q).
Context (sch : schedule) (Hfair : fair sch).
Local Abbreviation h := (height dem).
Local Abbreviation w := (width dem).

Lemma elem_of_order (s : gset cell) q : q ∈ order s ↔ q ∈ s.
Proof. by rewrite (Horder s), elem_of_elements. Qed.

(** The first pass over any list of boundary cells. *)
Lemma phase1_fold_spec bs : ∀ st added st' added',
  has_shape h w (command_mask st) →
  foldl (phase1_step dem nodata ar flood_level sch) (st, added) bs
  = (st', added') →
  ∃ adm,
    marks dem nodata FloodExpansion st st' adm ∧
    added' = added ∪ list_to_set adm ∧
    (∀ q, q ∈ adm ↔
          aget 0 (command_mask st) q = 0 ∧
          ∃ b, b ∈ bs ∧
               candidate dem nodata (sched_nbrs sch)
                         (arith_add ar (elev dem b) flood_level) b q).
Proof.
  assert (FloodExpansion ≠ 0) as Hmark by done.
  induction bs as [|b bs IH]; intros st added st' added' Hs Hfold.
  - simpl in Hfold. simplify_eq. exists []. split_and!.
    + by apply marks_refl.
    + by rewrite list_to_set_nil, (right_id_L ∅ (∪)).
    + intros q. split; [by intros ?%elem_of_nil|].
      by intros (_ & b & ?%elem_of_nil & _).
  - simpl in Hfold.
    destruct (scan dem nodata (sched_nbrs sch) FloodExpansion
                (arith_add ar (elev dem b) flood_level) b st)
      as [st1 new] eqn:Hscan.
    destruct (scan_spec _ _ _ _ _ _ _ _ _ Hmark Hs Hscan)
      as (Hs1 & _ & Hmem & Hget & _ & _).
    pose proof (scan_marks _ _ _ Hmark _ _ _ _ _ _ Hs Hscan) as Hmk.
    destruct (IH _ _ _ _ Hs1 Hfold) as (adm & Hmk' & -> & Hadm).
    exists (new ++ adm). split_and!.
    + by eapply marks_trans.
    + by rewrite list_to_set_app_L, (assoc_L (∪)).
    + intros q. rewrite elem_of_app, Hadm, Hmem, Hget. split.
      * intros [[Hz Hc]|[Hz (b' & Hb' & Hc)]].
        -- split; [done|]. exists b. split; [left|done].
        -- case_decide; [done|]. split; [done|].
           exists b'. split; [by right|done].
      * intros [Hz (b' & [->|Hb']%elem_of_cons & Hc)]; [by left|].
        destruct (decide (q ∈ new)) as [Hin|Hnin].
        -- left. by apply Hmem.
        -- right. eauto.
Qed.

Lemma phase1_spec (B : gset cell) st st' added :
  has_shape h w (command_mask st) →
  phase1 dem nodata ar order flood_level sch B st = (st', added) →
  ∃ adm,
    marks dem nodata FloodExpansion st st' adm ∧
    added = list_to_set adm ∧
    (∀ q, q ∈ adm ↔
          aget 0 (command_mask st) q = 0 ∧
          ∃ b, b ∈ B ∧
               candidate dem nodata neighbors
                         (arith_add ar (elev dem b) flood_level) b q).
Proof.
  intros Hs Hrun. unfold phase1 in Hrun.
  destruct (phase1_fold_spec _ _ _ _ _ Hs Hrun) as (adm & Hmk & -> & Hadm).
  exists adm. split_and!; [done|by rewrite (left_id_L ∅ (∪))|].
  intros q. rewrite Hadm. split; intros [Hz (b & Hb & Hc)]; (split; [done|]);
    exists b; (split; [by apply elem_of_order|]); by apply (candidate_fair dem nodata sch).
Qed.

(** Admission in the first pass, in the words of the specification. *)
Lemma rim_admitted_candidate (m : ndarray Z) (B : gset cell) q :
  rim_admitted dem nodata ar flood_level m B q ↔
  aget 0 m q = 0 ∧
  ∃ b, b ∈ B ∧
       candidate dem nodata neighbors
                 (arith_add ar (elev dem b) flood_level) b q.
Proof.
  unfold rim_admitted, candidate, in_bounds, Unvisited. split.
  - intros (Hz & Hin & Hdata & b & Hb & Hadj & Hle). split; [done|].
    exists b. split; [done|]. split_and!; [|by apply in_grid_inside| |done].
    + by apply neighbors_adjacent8.
    + by apply has_data_spec.
  - intros (Hz & b & Hb & Hadj & Hin & Hdata & Hle). split_and!; [done| | |].
    + by apply in_grid_inside.
    + by apply has_data_spec.
    + exists b. split_and!; [done| |done]. by apply neighbors_adjacent8.
Qed.

(** Both passes on top of a mask that holds only 0 and 1. *)
Lemma expansion_spec st :
  has_shape h w (command_mask st) →
  (∀ p, aget 0 (command_mask st) p = Unvisited
        ∨ aget 0 (command_mask st) p = Default) →
  let B := find_boundary dem sch (command_mask st) in
  ∃ st2 adm,
    (let '(st1, added) := phase1 dem nodata ar order flood_level sch B st in
     phase2 dem nodata order sch st1 added)
    = Some (st2, list_to_set adm) ∧
    marks dem nodata FloodExpansion st st2 adm ∧
    (∀ p, aget 0 (command_mask st2) p = FloodExpansion
          ↔ flooded dem nodata ar flood_level (command_mask st) B p).
Proof.
  intros Hs Hvals B.
  assert (FloodExpansion ≠ 0) as Hmark by done.
  destruct (phase1 dem nodata ar order flood_level sch B st)
    as [st1 added] eqn:Hp1.
  destruct (phase1_spec _ _ _ _ Hs Hp1) as (adm1 & Hmk1 & -> & Hadm1).
  pose proof (mk_shape _ _ _ _ _ _ Hmk1) as Hs1.
  pose proof (mk_mask _ _ _ _ _ _ Hmk1) as Hm1.
  unfold phase2.
  destruct (flood_fill_total dem nodata sch Hfair FloodExpansion Hmark
              (measure st1 (order (list_to_set adm1))) st1
              (order (list_to_set adm1)) Hs1) as (st2 & adm2 & Hrun); [done|].
  rewrite Hrun. simpl.
  pose proof (flood_fill_marks dem nodata sch _ _ _ _ _ _ Hmark Hs1 Hrun)
    as Hmk2.
  assert (∀ q, q ∈ order (list_to_set adm1)
               ↔ aget 0 (command_mask st1) q = FloodExpansion) as Hseeds.
  { intros q. rewrite elem_of_order, elem_of_list_to_set, Hm1.
    case_decide; [done|]. split; [done|].
    destruct (Hvals q) as [-> | ->]; done. }
  destruct (flood_fill_correct dem nodata sch Hfair FloodExpansion Hmark _ _ _
              _ _ Hs1 Hseeds Hrun) as (Hs2 & Hreach & _).
  exists st2, (adm1 ++ adm2). split_and!.
  - by rewrite list_to_set_app_L.
  - by eapply marks_trans.
  - intros p. rewrite Hreach. split.
    + induction 1 as [s Hseed|p q _ IH Hc Hz].
      * apply flooded_rim, rim_admitted_candidate, Hadm1.
        by apply elem_of_order, elem_of_list_to_set in Hseed.
      * apply flooded_next with p; [done|by apply candidate_downhill|].
        rewrite Hm1 in Hz. by case_decide.
    + induction 1 as [q Hrim|p q _ IH Hstep Hz].
      * apply fill_seed, elem_of_order, elem_of_list_to_set, Hadm1.
        by apply rim_admitted_candidate.
      * destruct (decide (q ∈ adm1)) as [Hin|Hnin].
        -- by apply fill_seed, elem_of_order, elem_of_list_to_set.
        -- apply fill_step with p; [done|by apply candidate_downhill|].
           rewrite Hm1. by rewrite decide_False.
Qed.
End ExpansionFacts.

(** ** The whole run *)

Lemma fair_source_schedule : fair source_schedule.
Proof.
  split; simpl.
  - done.
  - by intros [|p queue].
  - intros [|p' queue] p rest Hpop; simplify_eq/=. done.
Qed.

Section Run.
Context (dem : ndarray Q) (nodata : option Q).
Context (ar : arith).
Context (order : gset cell → list cell) (Horder : visits_each_once order).
Context (flood_level : Q).
Context (sch : schedule) (Hfair : fair sch).
Local Abbreviation h := (height dem).
Local Abbreviation w := (width dem).

(** Step 2 on top of step 1: it ends, marks fresh cells only, and the
    cells it marks are the flooded ones. *)
Lemma expand_spec st :
  has_shape h w (command_mask st) →
  (∀ p, aget 0 (command_mask st) p = Unvisited
        ∨ aget 0 (command_mask st) p = Default) →
  let B := find_boundary dem sch (command_mask st) in
  ∃ st2 adm,
    expand dem nodata ar order flood_level sch st
    = Some (st2, if Qlt_le_dec 0 flood_level
                 then Some (B, Z.of_nat (length adm)) else None) ∧
    marks dem nodata FloodExpansion st st2 adm ∧
    (∀ p, aget 0 (command_mask st2) p = FloodExpansion
          ↔ (0 < flood_level)%Q ∧
            flooded dem nodata ar flood_level (command_mask st) B p).
Proof.
  intros Hs Hvals B. subst B. unfold expand.
  destruct (Qlt_le_dec 0 flood_level) as [Hpos|Hneg].
  - destruct (expansion_spec dem nodata ar order Horder flood_level sch Hfair
                st Hs Hvals) as (st2 & adm & Hrun & Hmk & Hflood).
    simpl in Hrun, Hflood.
    destruct (phase1 dem nodata ar order flood_level sch
                (find_boundary dem sch (command_mask st)) st) as [st1 added].
    rewrite Hrun. simpl. exists st2, adm. split_and!.
    + rewrite size_list_to_set; [done|]. by destruct Hmk.
    + done.
    + intros p. rewrite Hflood. tauto.
  - exists st, []. split_and!.
    + done.
    + by apply marks_refl.
    + intros p. split.
      * intros H2. destruct (Hvals p) as [Hv|Hv]; rewrite Hv in H2; done.
      * intros [Hpos _]. exfalso. by apply (Qlt_not_le _ _ Hpos).
Qed.

(** A run from a validated outlet, step by step. *)
Lemma main_with_spec outlet a e :
  in_grid dem outlet = true → has_data dem nodata outlet = true →
  ∃ st st2 adm1 adm2,
    delineate dem nodata sch outlet = Some st ∧
    expand dem nodata ar order flood_level sch st
    = Some (st2, if Qlt_le_dec 0 flood_level
                 then Some (find_boundary dem sch (command_mask st),
                            Z.of_nat (length adm2))
                 else None) ∧
    main_with dem nodata ar order flood_level sch outlet a e
    = Returns
        {| mask := command_mask st2;
           trace := writes st2;
           default_area := Z.of_nat (count_if (λ x, x = 1) (command_mask st));
           boundary_cells :=
             if Qlt_le_dec 0 flood_level
             then Some (find_boundary dem sch (command_mask st)) else None;
           expansion_cells :=
             if Qlt_le_dec 0 flood_level
             then Some (Z.of_nat (length adm2)) else None;
           pixel_area := Qabs (arith_mul ar a e);
           total_pixels :=
             Z.of_nat (count_if (λ x, 0 < x) (command_mask st2));
           total_area :=
             arith_scale ar
               (Z.of_nat (count_if (λ x, 0 < x) (command_mask st2)))
               (Qabs (arith_mul ar a e));
           flood_expansion_area :=
             if Qlt_le_dec 0 flood_level
             then Some (Z.of_nat (count_if (λ x, 0 < x) (command_mask st2))
                        - Z.of_nat (count_if (λ x, x = 1) (command_mask st)))
             else None |} ∧
    marks dem nodata Default (blank dem) st (outlet :: adm1) ∧
    marks dem nodata FloodExpansion st st2 adm2 ∧
    (∀ p, aget 0 (command_mask st) p = Default
          ↔ downhill dem nodata outlet p) ∧
    (∀ p, aget 0 (command_mask st) p = Unvisited
          ∨ aget 0 (command_mask st) p = Default) ∧
    (∀ p, aget 0 (command_mask st2) p = FloodExpansion
          ↔ (0 < flood_level)%Q ∧
            flooded dem nodata ar flood_level (command_mask st)
                    (find_boundary dem sch (command_mask st)) p).
Proof.
  intros Hin Hdata.
  destruct (delineate_spec dem nodata sch Hfair outlet Hin Hdata)
    as (st & adm1 & Hdel & Hmk1 & Hdown & Hvals).
  pose proof (mk_shape _ _ _ _ _ _ Hmk1) as Hs.
  destruct (expand_spec st Hs Hvals) as (st2 & adm2 & Hexp & Hmk2 & Hflood).
  exists st, st2, adm1, adm2. split_and!; try done.
  unfold main_with.
  rewrite (check_outlet_accepts dem nodata outlet Hin Hdata), Hdel, Hexp.
  by destruct (Qlt_le_dec 0 flood_level).
Qed.
End Run.

(** ** Counting the cells of a run *)

Section Counts.
Context (dem : ndarray Q) (nodata : option Q).
Local Abbreviation h := (height dem).
Local Abbreviation w := (width dem).

Lemma delineate_shape sch outlet st :
  delineate dem nodata sch outlet = Some st →
  has_shape h w (command_mask st).
Proof.
  unfold delineate. intros Hrun.
  destruct (flood_fill _ _ _ _ _ _ _) as [[st' adm]|] eqn:Hfill; simplify_eq/=.
  eapply (mk_shape dem nodata), (flood_fill_marks dem nodata); [| |done];
    [done|]. apply aset_shape, blank_shape.
Qed.

(** After step 1 from a blank mask. *)
Lemma delineation_count st outlet adm1 :
  marks dem nodata Default (blank dem) st (outlet :: adm1) →
  count_if (λ x, x = 2) (command_mask st) = 0%nat ∧
  count_if (λ x, x = 1) (command_mask st) = S (length adm1) ∧
  count_if (λ x, 0 < x) (command_mask st) = S (length adm1) ∧
  count_if (λ x, x ≠ 0) (command_mask st) = S (length adm1) ∧
  (count0 (command_mask st) + S (length adm1)
   = Z.to_nat h * Z.to_nat w)%nat.
Proof.
  intros Hmk. pose proof (blank_shape dem) as Hs.
  pose proof (λ P HP, marks_count dem nodata Default P (H:=HP) _ _ _ Hs Hmk)
    as Hc.
  unfold count0. split_and!.
  - specialize (Hc (λ x, x = 2) _).
    unfold blank in Hc. simpl in Hc. rewrite count_if_full in Hc.
    unfold indicator in Hc. simpl in Hc. lia.
  - specialize (Hc (λ x, x = 1) _).
    unfold blank in Hc. simpl in Hc. rewrite count_if_full in Hc.
    unfold indicator in Hc. simpl in Hc. lia.
  - specialize (Hc (λ x, 0 < x) _).
    unfold blank in Hc. simpl in Hc. rewrite count_if_full in Hc.
    unfold indicator in Hc. simpl in Hc. lia.
  - specialize (Hc (λ x, x ≠ 0) _).
    unfold blank in Hc. simpl in Hc. rewrite count_if_full in Hc.
    unfold indicator in Hc. simpl in Hc. lia.
  - specialize (Hc (λ x, x = 0) _).
    unfold blank in Hc. simpl in Hc. rewrite count_if_full in Hc.
    unfold indicator in Hc. simpl in Hc. lia.
Qed.

(** After step 2 on top of it. *)
Lemma expansion_count st st2 adm2 :
  has_shape h w (command_mask st) →
  marks dem nodata FloodExpansion st st2 adm2 →
  count_if (λ x, x = 1) (command_mask st2)
  = count_if (λ x, x = 1) (command_mask st) ∧
  (count_if (λ x, x = 2%Z) (command_mask st2)
   = count_if (λ x, x = 2%Z) (command_mask st) + length adm2)%nat ∧
  (count_if (λ x, (0 < x)%Z) (command_mask st2)
   = count_if (λ x, (0 < x)%Z) (command_mask st) + length adm2)%nat ∧
  (count_if (λ x, x ≠ 0%Z) (command_mask st2)
   = count_if (λ x, x ≠ 0%Z) (command_mask st) + length adm2)%nat ∧
  (count0 (command_mask st2) + length adm2 = count0 (command_mask st))%nat.
Proof.
  intros Hs Hmk.
  pose proof (λ P HP, marks_count dem nodata FloodExpansion P (H:=HP) _ _ _
                        Hs Hmk) as Hc.
  unfold count0. split_and!.
  - specialize (Hc (λ x, x = 1) _). unfold indicator in Hc. simpl in Hc. lia.
  - specialize (Hc (λ x, x = 2) _). unfold indicator in Hc. simpl in Hc. lia.
  - specialize (Hc (λ x, 0 < x) _). unfold indicator in Hc. simpl in Hc. lia.
  - specialize (Hc (λ x, x ≠ 0) _). unfold indicator in Hc. simpl in Hc. lia.
  - specialize (Hc (λ x, x = 0) _). unfold indicator in Hc. simpl in Hc. lia.
Qed.
End Counts.

(** ** Consequences for whole runs *)

Section RunFacts.
Context (dem : ndarray Q) (nodata : option Q).
Context (ar : arith).
Local Abbreviation h := (height dem).
Local Abbreviation w := (width dem).

Lemma main_with_raises order flood_level sch outlet a e err :
  check_outlet dem nodata outlet = inl err →
  main_with dem nodata ar order flood_level sch outlet a e = Raises err.
Proof. intros Hc. unfold main_with. by rewrite Hc. Qed.

(** An outlet outside the grid never passes, whichever error is raised. *)
Lemma check_outlet_outside outlet :
  in_grid dem outlet = false →
  check_outlet dem nodata outlet = inl IndexError
  ∨ check_outlet dem nodata outlet = inl OutOfBounds.
Proof.
  intros Hout. unfold check_outlet.
  destruct (getitem _ _ _); [|by left]. rewrite Hout. by right.
Qed.

(** An outlet of the grid on a nodata cell raises [NoDataOutlet]. *)
Lemma check_outlet_nodata outlet :
  in_grid dem outlet = true → is_nodata dem nodata outlet →
  check_outlet dem nodata outlet = inl NoDataOutlet.
Proof.
  intros Hin (nd & -> & Heq). unfold check_outlet, getitem, norm_index.
  pose proof Hin as Hin'. unfold in_grid in Hin'.
  rewrite !andb_true_iff in Hin'. destruct Hin' as [[[H1 H2] H3] H4].
  rewrite H1, H2, H3, H4. simpl. rewrite Hin. simpl.
  apply Qeq_bool_iff in Heq. by rewrite Heq.
Qed.


(** The final mask over both steps, cell by cell. *)
Lemma final_mask_cases st st2 adm2 p :
  marks dem nodata FloodExpansion st st2 adm2 →
  (∀ p, aget 0 (command_mask st) p = Unvisited
        ∨ aget 0 (command_mask st) p = Default) →
  (aget 0 (command_mask st2) p = FloodExpansion
   ∧ aget 0 (command_mask st) p = Unvisited)
  ∨ (aget 0 (command_mask st2) p = aget 0 (command_mask st) p
     ∧ aget 0 (command_mask st2) p ≠ FloodExpansion).
Proof.
  intros Hmk Hvals. rewrite (mk_mask _ _ _ _ _ _ Hmk).
  case_decide as Hin.
  - left. split; [done|]. by apply (mk_fresh _ _ _ _ _ _ Hmk).
  - right. split; [done|]. by destruct (Hvals p) as [-> | ->].
Qed.

(** The outputs of a run do not depend on the order in which the two
    sets are iterated. *)
Lemma main_order_irrelevant flood_level outlet a e order1 order2 :
  visits_each_once order1 → visits_each_once order2 →
  match main dem nodata ar order1 flood_level outlet a e,
        main dem nodata ar order2 flood_level outlet a e with
  | Returns r1, Returns r2 => outputs r1 = outputs r2
  | Raises e1, Raises e2 => e1 = e2
  | _, _ => False
  end.
Proof.
  intros Ho1 Ho2. unfold main.
  destruct (check_outlet dem nodata outlet) as [err|e0] eqn:Hc.
  - by rewrite !(main_with_raises _ _ _ _ _ _ err Hc).
  - apply check_outlet_ok in Hc as [Hin Hdata].
    destruct (main_with_spec dem nodata ar order1 Ho1 flood_level _
                fair_source_schedule outlet a e Hin Hdata)
      as (st & st2 & adm1 & adm2 & Hdel & _ & -> & Hmk1 & Hmk2 & _ & Hvals & Hfl).
    destruct (main_with_spec dem nodata ar order2 Ho2 flood_level _
                fair_source_schedule outlet a e Hin Hdata)
      as (st' & st2' & adm1' & adm2' & Hdel' & _ & -> & _ & Hmk2' & _ & _ & Hfl').
    rewrite Hdel in Hdel'. simplify_eq.
    pose proof (mk_shape _ _ _ _ _ _ Hmk1) as Hs.
    assert (command_mask st2 = command_mask st2') as Hmask.
    { apply (ndarray_ext 0 h w);
        [by destruct Hmk2|by destruct Hmk2'|].
      intros p _.
      destruct (final_mask_cases _ _ _ p Hmk2 Hvals) as [[H2 _]|[Heq Hn2]],
               (final_mask_cases _ _ _ p Hmk2' Hvals) as [[H2' _]|[Heq' Hn2']].
      - congruence.
      - exfalso. by apply Hn2', Hfl', Hfl.
      - exfalso. by apply Hn2, Hfl, Hfl'.
      - congruence. }
    assert (length adm2 = length adm2') as Hlen.
    { destruct (expansion_count dem nodata _ _ _ Hs Hmk2) as (_ & Hc2 & _).
      destruct (expansion_count dem nodata _ _ _ Hs Hmk2') as (_ & Hc2' & _).
      rewrite Hmask in Hc2. lia. }
    unfold outputs. simpl. by rewrite Hmask, Hlen.
Qed.
End RunFacts.

(** ** Properties of the program *)

(** C1.  After the default delineation, from a validated outlet, a cell
    holds [Default] iff it is the outlet or a chain of 8-connected steps
    reaches it from the outlet, each step to a cell in bounds, not nodata
    and not higher than the one before; the outlet itself is [Default];
    and every schedule of the worklist (any order of the eight offsets,
    any order of taking cells from the queue) ends with the same mask. *)
Theorem default_area_is_downhill_closure
    (dem : ndarray Q) (nodata : option Q) (outlet : cell) (outlet_elev : Q) :
  check_outlet dem nodata outlet = inr outlet_elev →
  ∃ st,
    delineate dem nodata source_schedule outlet = Some st ∧
    (∀ p, aget 0 (command_mask st) p = Default
          ↔ downhill dem nodata outlet p) ∧
    aget 0 (command_mask st) outlet = Default ∧
    (∀ sch, fair sch →
       ∃ st', delineate dem nodata sch outlet = Some st' ∧
              command_mask st' = command_mask st).
Proof.
  intros [Hin Hdata]%check_outlet_ok.
  destruct (delineate_spec dem nodata _ fair_source_schedule outlet Hin Hdata)
    as (st & adm & Hdel & Hmk & Hdown & Hvals).
  exists st. split_and!; [done|done| |].
  - apply Hdown. constructor.
  - intros sch Hfair.
    destruct (delineate_spec dem nodata sch Hfair outlet Hin Hdata)
      as (st' & adm' & Hdel' & Hmk' & Hdown' & Hvals').
    exists st'. split; [done|].
    apply (ndarray_ext 0 (height dem) (width dem));
      [by destruct Hmk'|by destruct Hmk|].
    intros p _.
    destruct (Hvals p) as [H1|H1], (Hvals' p) as [H2|H2];
      rewrite H1, H2; try done; exfalso.
    + apply Hdown', Hdown in H2. by rewrite H1 in H2.
    + apply Hdown, Hdown' in H1. by rewrite H2 in H1.
Qed.

Lemma default_area_is_downhill_closure_witness :
  ∃ st,
    delineate bowl None source_schedule (1, 1) = Some st ∧
    (∀ p, aget 0 (command_mask st) p = Default ↔ downhill bowl None (1, 1) p) ∧
    aget 0 (command_mask st) (1, 1) = Default ∧
    (∀ sch, fair sch →
       ∃ st', delineate bowl None sch (1, 1) = Some st' ∧
              command_mask st' = command_mask st).
Proof.
  apply (default_area_is_downhill_closure bowl None (1, 1) 5%Q).
  reflexivity.
Defined.

(** C2.  With a positive flood level, a cell ends with [FloodExpansion]
    iff it was admitted at the rim (it was [Unvisited] after step 1, in
    bounds, not nodata, an 8-neighbour of a cell [b] of the boundary set
    computed before the expansion, and not higher than the sum of the
    elevation of [b] and the flood level as the arithmetic of the run
    computes it) or a chain of untolerant downhill steps through cells
    [Unvisited] after step 1 reaches it from such a cell. *)
Theorem flood_expansion_characterised
    (dem : ndarray Q) (nodata : option Q) (ar : arith)
    (order : gset cell → list cell)
    (flood_level : Q) (outlet : cell) (a e outlet_elev : Q) :
  visits_each_once order →
  check_outlet dem nodata outlet = inr outlet_elev →
  (0 < flood_level)%Q →
  ∃ st r,
    delineate dem nodata source_schedule outlet = Some st ∧
    main dem nodata ar order flood_level outlet a e = Returns r ∧
    boundary_cells r
    = Some (find_boundary dem source_schedule (command_mask st)) ∧
    ∀ p, aget 0 (mask r) p = FloodExpansion
         ↔ flooded dem nodata ar flood_level (command_mask st)
                   (find_boundary dem source_schedule (command_mask st)) p.
Proof.
  intros Horder [Hin Hdata]%check_outlet_ok Hpos.
  destruct (main_with_spec dem nodata ar order Horder flood_level _
              fair_source_schedule outlet a e Hin Hdata)
    as (st & st2 & adm1 & adm2 & Hdel & _ & Hmain & _ & _ & _ & _ & Hfl).
  exists st. eexists. split_and!; [done|exact Hmain| |]; simpl.
  - destruct (Qlt_le_dec 0 flood_level) as [_|Hle]; [done|].
    by apply Qlt_not_le in Hpos.
  - intros p. rewrite Hfl. tauto.
Qed.

Lemma flood_expansion_characterised_witness :
  ∃ st r,
    delineate hairline None source_schedule (0, 0) = Some st ∧
    main hairline None binary64 elements tiny_flood_level (0, 0)
         tenth (- tenth)%Q = Returns r ∧
    boundary_cells r
    = Some (find_boundary hairline source_schedule (command_mask st)) ∧
    ∀ p, aget 0 (mask r) p = FloodExpansion
         ↔ flooded hairline None binary64 tiny_flood_level (command_mask st)
                   (find_boundary hairline source_schedule (command_mask st))
                   p.
Proof.
  apply (flood_expansion_characterised hairline None binary64 elements
           tiny_flood_level (0, 0) tenth (- tenth)%Q 1%Q).
  - intros s. reflexivity.
  - reflexivity.
  - reflexivity.
Defined.

(** C3, at an input where the source departs from it: on the 3×3 grid the
    resolved outlet (3, 0) lies outside the grid, and the run stops with
    NumPy's [IndexError] raised by the elevation read of line 67, not with
    the out-of-bounds error of the validation that follows it. *)
Theorem outlet_below_grid_raises_index_error :
  check_outlet bowl None (3, 0) = inl IndexError ∧
  ∀ ar order flood_level a e,
    main bowl None ar order flood_level (3, 0) a e = Raises IndexError.
Proof.
  split; [reflexivity|]. intros ar order flood_level a e.
  by apply main_with_raises.
Qed.

(** C4.  When boundary detection runs on the mask of step 1, a cell is in
    the boundary set iff it holds [Default] and one of its 8-neighbours
    inside the grid holds [Unvisited]; a cell all of whose in-bounds
    neighbours are visited is not in the set, however many of its
    neighbour positions fall outside the grid. *)
Theorem boundary_set_characterised
    (dem : ndarray Q) (nodata : option Q) (outlet : cell) (st : state) :
  delineate dem nodata source_schedule outlet = Some st →
  (∀ p, p ∈ find_boundary dem source_schedule (command_mask st)
        ↔ on_boundary dem (command_mask st) p) ∧
  (∀ p, (∀ q, adjacent8 p q → in_bounds dem q →
              aget 0 (command_mask st) q ≠ Unvisited) →
        p ∉ find_boundary dem source_schedule (command_mask st)).
Proof.
  intros Hs%delineate_shape.
  assert (∀ p, p ∈ find_boundary dem source_schedule (command_mask st)
               ↔ on_boundary dem (command_mask st) p) as Hspec.
  { intros p. by apply find_boundary_on_boundary, Hs; apply fair_source_schedule. }
  split; [done|].
  intros p Hall [_ (q & Hadj & Hin & Hz)]%Hspec. by apply (Hall q).
Qed.

Lemma boundary_set_characterised_witness :
  (∀ p, p ∈ find_boundary bowl source_schedule [[0; 0; 0]; [0; 1; 0]; [0; 0; 0]]
        ↔ on_boundary bowl [[0; 0; 0]; [0; 1; 0]; [0; 0; 0]] p) ∧
  (∀ p, (∀ q, adjacent8 p q → in_bounds bowl q →
              aget 0 [[0; 0; 0]; [0; 1; 0]; [0; 0; 0]] q ≠ Unvisited) →
        p ∉ find_boundary bowl source_schedule [[0; 0; 0]; [0; 1; 0]; [0; 0; 0]]).
Proof.
  apply (boundary_set_characterised bowl None (1, 1)
           {| command_mask := [[0; 0; 0]; [0; 1; 0]; [0; 0; 0]];
              writes := [((1, 1), 0, 1)] |}).
  reflexivity.
Defined.

(** C5.  Over the whole run every assignment of a non-zero value hits a
    cell that holds [Unvisited] at that moment, lies in the grid and is not
    nodata; so no cell is assigned twice, there are at most
    [height * width] assignments, the assigned cells are exactly the
    non-zero cells of the final mask, and a nodata cell stays
    [Unvisited].  The run always ends. *)
Theorem every_write_hits_an_unvisited_data_cell
    (dem : ndarray Q) (nodata : option Q) (ar : arith)
    (order : gset cell → list cell)
    (flood_level : Q) (outlet : cell) (a e : Q) :
  visits_each_once order →
  match main dem nodata ar order flood_level outlet a e with
  | Returns r =>
      Forall (entry_ok dem nodata) (trace r) ∧
      NoDup (written <$> trace r) ∧
      Z.of_nat (length (trace r)) ≤ height dem * width dem ∧
      (∀ p, p ∈ (written <$> trace r) ↔ aget 0 (mask r) p ≠ Unvisited) ∧
      (∀ p, is_nodata dem nodata p → aget 0 (mask r) p = Unvisited)
  | Raises _ => True
  | OutOfFuel => False
  end.
Proof.
  intros Horder. unfold main.
  destruct (check_outlet dem nodata outlet) as [err|e0] eqn:Hc.
  - by rewrite (main_with_raises _ _ ar _ _ _ _ _ _ err Hc).
  - apply check_outlet_ok in Hc as [Hin Hdata].
    destruct (main_with_spec dem nodata ar order Horder flood_level _
                fair_source_schedule outlet a e Hin Hdata)
      as (st & st2 & adm1 & adm2 & _ & _ & -> & Hmk1 & Hmk2 & _ & _ & _).
    simpl.
    pose proof (mk_shape _ _ _ _ _ _ Hmk1) as Hs.
    assert (trace_inv dem nodata st2) as [_ Hent Hnd Hnz].
    { eapply (marks_trace_inv dem nodata FloodExpansion); [done| |done].
      eapply (marks_trace_inv dem nodata Default); [done| |done].
      apply blank_trace_inv. }
    split_and!; [done|done| |done|].
    + rewrite (mk_writes _ _ _ _ _ _ Hmk2), (mk_writes _ _ _ _ _ _ Hmk1).
      rewrite !length_app, !length_map. simpl.
      destruct (delineation_count dem nodata _ _ _ Hmk1) as (_ & _ & _ & _ & Hc0).
      destruct (expansion_count dem nodata _ _ _ Hs Hmk2) as (_ & _ & _ & _ & Hc2).
      unfold height, width in *. destruct dem as [|row rows]; simpl in *; nia.
    + intros p Hno.
      destruct (decide (aget 0 (command_mask st2) p = Unvisited)) as [|Hne];
        [done|].
      apply Hnz in Hne. apply list_elem_of_fmap in Hne as (en & -> & Hen).
      rewrite Forall_forall in Hent.
      apply Hent in Hen as (_ & _ & _ & Hdat). done.
Qed.

Lemma every_write_hits_an_unvisited_data_cell_witness :
  match main bowl None binary64 elements 5%Q (1, 1) 1%Q (-1)%Q with
  | Returns r =>
      Forall (entry_ok bowl None) (trace r) ∧
      NoDup (written <$> trace r) ∧
      Z.of_nat (length (trace r)) ≤ height bowl * width bowl ∧
      (∀ p, p ∈ (written <$> trace r) ↔ aget 0 (mask r) p ≠ Unvisited) ∧
      (∀ p, is_nodata bowl None p → aget 0 (mask r) p = Unvisited)
  | Raises _ => True
  | OutOfFuel => False
  end.
Proof.
  apply (every_write_hits_an_unvisited_data_cell bowl None binary64 elements 5%Q
           (1, 1) 1%Q (-1)%Q).
  intros s. reflexivity.
Defined.

(** C6.  With flood level 0 the boundary is never computed, no expansion
    pass runs, the final mask (and the log of assignments) is the one
    step 1 left, and no cell holds [FloodExpansion]. *)
Theorem zero_flood_level_skips_expansion
    (dem : ndarray Q) (nodata : option Q) (ar : arith)
    (order : gset cell → list cell)
    (flood_level : Q) (outlet : cell) (a e outlet_elev : Q) :
  check_outlet dem nodata outlet = inr outlet_elev →
  (flood_level == 0)%Q →
  ∃ st r,
    delineate dem nodata source_schedule outlet = Some st ∧
    expand dem nodata ar order flood_level source_schedule st = Some (st, None) ∧
    main dem nodata ar order flood_level outlet a e = Returns r ∧
    mask r = command_mask st ∧
    trace r = writes st ∧
    boundary_cells r = None ∧
    expansion_cells r = None ∧
    ∀ p, aget 0 (mask r) p ≠ FloodExpansion.
Proof.
  intros Hc Hzero. pose proof Hc as [Hin Hdata]%check_outlet_ok.
  destruct (delineate_spec dem nodata _ fair_source_schedule outlet Hin Hdata)
    as (st & adm & Hdel & Hmk & Hdown & Hvals).
  assert (expand dem nodata ar order flood_level source_schedule st
          = Some (st, None)) as Hexp.
  { unfold expand. destruct (Qlt_le_dec 0 flood_level) as [Hpos|_]; [|done].
    rewrite Hzero in Hpos. by apply Qlt_irrefl in Hpos. }
  exists st. eexists. split_and!; [done|done| | | | | |].
  - unfold main, main_with. rewrite Hc, Hdel, Hexp. reflexivity.
  - done.
  - done.
  - done.
  - done.
  - intros p. simpl. by destruct (Hvals p) as [-> | ->].
Qed.

Lemma zero_flood_level_skips_expansion_witness :
  ∃ st r,
    delineate bowl None source_schedule (1, 1) = Some st ∧
    expand bowl None binary64 elements 0%Q source_schedule st = Some (st, None) ∧
    main bowl None binary64 elements 0%Q (1, 1) 1%Q (-1)%Q = Returns r ∧
    mask r = command_mask st ∧
    trace r = writes st ∧
    boundary_cells r = None ∧
    expansion_cells r = None ∧
    ∀ p, aget 0 (mask r) p ≠ FloodExpansion.
Proof.
  apply (zero_flood_level_skips_expansion bowl None binary64 elements 0%Q (1, 1)
           1%Q (-1)%Q 5%Q).
  - reflexivity.
  - reflexivity.
Defined.

(** C7.  Two runs on the same grid, outlet and flood level end the same
    way, whatever order each of them iterates its sets in: either both
    raise the same error, or both return the same mask and the same
    figures. *)
Theorem run_is_deterministic
    (dem : ndarray Q) (nodata : option Q) (ar : arith) (flood_level : Q)
    (outlet : cell)
    (a e : Q) (order1 order2 : gset cell → list cell) :
  visits_each_once order1 → visits_each_once order2 →
  match main dem nodata ar order1 flood_level outlet a e,
        main dem nodata ar order2 flood_level outlet a e with
  | Returns r1, Returns r2 => mask r1 = mask r2 ∧ outputs r1 = outputs r2
  | Raises e1, Raises e2 => e1 = e2
  | _, _ => False
  end.
Proof.
  intros Ho1 Ho2.
  pose proof (main_order_irrelevant dem nodata ar flood_level outlet a e
                order1 order2 Ho1 Ho2) as Hsame.
  destruct (main dem nodata ar order1 flood_level outlet a e) as [e1| |r1],
           (main dem nodata ar order2 flood_level outlet a e) as [e2| |r2];
    try done.
  split; [|done]. unfold outputs in Hsame. by simplify_eq.
Qed.

Lemma run_is_deterministic_witness :
  match main bowl None binary64 elements 5%Q (1, 1) 1%Q (-1)%Q,
        main bowl None binary64 (λ s, reverse (elements s)) 5%Q (1, 1)
             1%Q (-1)%Q with
  | Returns r1, Returns r2 => mask r1 = mask r2 ∧ outputs r1 = outputs r2
  | Raises e1, Raises e2 => e1 = e2
  | _, _ => False
  end.
Proof.
  apply (run_is_deterministic bowl None binary64 5%Q (1, 1) 1%Q (-1)%Q
           elements (λ s, reverse (elements s))).
  - intros s. reflexivity.
  - intros s. apply reverse_Permutation.
Defined.




(** On the 3×3 grid double precision gives no cell a smaller sum with
    flood level 5 than with flood level 2. *)
Lemma bowl_tolerance_grows : tolerance_grows bowl binary64 2 5.
Proof.
  intros b Hb. apply Qle_bool_iff. revert b Hb.
  apply (forall_cells bowl
           (λ b, Qle_bool (arith_add binary64 (elev bowl b) 2)
                          (arith_add binary64 (elev bowl b) 5))).
  by vm_compute.
Qed.


(** ** A run that shows the tolerance is spent at the rim *)

(** On the rising row with the outlet at its low end and flood level 1,
    the first pass admits the cell next to the outlet (1 <= 0 + 1); the
    second pass does not go on to the cell after it (2 <= 1 fails), though
    2 <= 1 + 1 would hold with the tolerance applied again. *)
Example tolerance_is_not_compounded :
  ∃ r, main stairs None binary64 elements 1%Q (0, 0) 1%Q (-1)%Q = Returns r ∧
       mask r = [[1; 2; 0; 0]].
Proof. eexists. split; [vm_compute; reflexivity|reflexivity]. Qed.

(** On the ramp with the outlet at its lowest cell every neighbour is
    higher than the cell it would be reached from, so only the outlet is
    [Default]: the comparison runs from the frontier cell down. *)
Example ramp_admits_nothing_uphill :
  ∃ r, main ramp None binary64 elements 0%Q (0, 4) 1%Q (-1)%Q = Returns r ∧
       mask r = [[0; 0; 0; 0; 1]].
Proof. eexists. split; [vm_compute; reflexivity|reflexivity]. Qed.

(** ** Runs that rounding decides *)

(** The doubles of the scenarios below pass through the conversion to
    the format and back unchanged. *)
Example doubles_are_read_exactly :
  Forall (λ x, (IEEE754.to_Q (IEEE754.of_Q 53 1024 x) == x)%Q)
         [tenth; (- tenth)%Q; fifth; tiny_flood_level;
          (4503599627370497 # 4503599627370496)%Q; 5%Q; 10%Q].
Proof. repeat constructor; by vm_compute. Qed.

(** Double precision rounds the sum of 1 and the flood level 1.2e-16 up
    to the next double, the elevation of the second cell, and the run
    admits that cell; without rounding the sum lies below the elevation
    and the cell stays [Unvisited]. *)
Example rounded_sum_admits_the_next_double :
  (arith_add binary64 1 tiny_flood_level
   == 4503599627370497 # 4503599627370496)%Q ∧
  (∃ r, main hairline None binary64 elements tiny_flood_level (0, 0)
             tenth (- tenth)%Q = Returns r ∧
        mask r = [[1; 2]]) ∧
  (∃ r, main hairline None exact_arith elements tiny_flood_level (0, 0)
             tenth (- tenth)%Q = Returns r ∧
        mask r = [[1; 0]]).
Proof.
  split; [by vm_compute|].
  split; eexists; (split; [vm_compute; reflexivity|reflexivity]).
Qed.

(** On a single-precision raster the sum of 1 and the flood level 0.2 is
    the single nearest to 1.2, which lies above the double nearest to
    1.2: the run that adds in single precision admits the second cell,
    the run that adds in double precision does not. *)
Example single_precision_sum_admits_more :
  (∃ r, main single_step None float32_raster elements fifth (0, 0)
             tenth (- tenth)%Q = Returns r ∧
        mask r = [[1; 2]]) ∧
  (∃ r, main single_step None binary64 elements fifth (0, 0)
             tenth (- tenth)%Q = Returns r ∧
        mask r = [[1; 0]]).
Proof.
  split; eexists; (split; [vm_compute; reflexivity|reflexivity]).
Qed.

(** With scale terms 0.1 and -0.1 the pixel area is the double nearest to
    their product, 0.010000000000000002, not the product itself, and the
    total area of nine pixels is the double nearest to nine times that
    double. *)
Example areas_are_rounded :
  ∃ r, main bowl None binary64 elements 5%Q (1, 1) tenth (- tenth)%Q
       = Returns r ∧
       (pixel_area r == 1441151880758559 # 144115188075855872)%Q ∧
       ¬ (pixel_area r == Qabs (tenth * - tenth))%Q ∧
       total_pixels r = 9 ∧
       (total_area r == 1621295865853379 # 18014398509481984)%Q ∧
       ¬ (total_area r == 9 * pixel_area r)%Q.
Proof.
  eexists. split; [vm_compute; reflexivity|].
  cbn [pixel_area total_pixels total_area]. split_and!; by vm_compute.
Qed.

(** ** Outlet validation, case by case *)

Section OutletCases.
Context (dem : ndarray Q) (nodata : option Q).

Lemma norm_index_none n i : norm_index n i = None ↔ ¬ (- n ≤ i < n).
Proof.
  unfold norm_index.
  destruct (0 <=? i) eqn:H1, (i <? n) eqn:H2, (- n <=? i) eqn:H3,
           (i <? 0) eqn:H4; simpl; split; (done || lia).
Qed.

Lemma getitem_none (p : cell) :
  getitem 0%Q dem p = None ↔ ¬ indexable dem p.
Proof.
  unfold getitem, indexable.
  destruct (norm_index (height dem) p.1) as [r|] eqn:Hr; simpl.
  - destruct (norm_index (width dem) p.2) as [c|] eqn:Hc; simpl.
    + split; [done|]. intros Hno. exfalso. apply Hno. split.
      * apply dec_stable. intros Hn. apply norm_index_none in Hn. congruence.
      * apply dec_stable. intros Hn. apply norm_index_none in Hn. congruence.
    + apply norm_index_none in Hc. split; [tauto|done].
  - apply norm_index_none in Hr. split; [tauto|done].
Qed.

Lemma has_data_false (p : cell) :
  has_data dem nodata p = false → is_nodata dem nodata p.
Proof.
  unfold has_data, is_nodata. destruct nodata as [nd|]; [|done].
  intros Hq%negb_false_iff%Qeq_bool_iff. eauto.
Qed.

Lemma getitem_in_grid (p : cell) :
  in_grid dem p = true → getitem 0%Q dem p = Some (elev dem p).
Proof.
  intros Hin. unfold getitem, norm_index. unfold in_grid in Hin.
  rewrite !andb_true_iff in Hin. destruct Hin as [[[H1 H2] H3] H4].
  rewrite H1, H2, H3, H4. simpl. by destruct p.
Qed.

(** X1 (lines 63-76).  Which way the outlet block ends is decided by the
    position alone: an index NumPy rejects gives [IndexError]; an index
    NumPy accepts only by wrapping a negative coordinate gives the
    out-of-bounds [ValueError]; a cell of the grid holding nodata gives
    the nodata [ValueError]; any other cell of the grid is accepted, and
    the elevation read is that of the outlet cell. *)
Theorem outlet_validation_cases (outlet : cell) :
  (check_outlet dem nodata outlet = inl IndexError
   ↔ ¬ indexable dem outlet) ∧
  (check_outlet dem nodata outlet = inl OutOfBounds
   ↔ indexable dem outlet ∧ ¬ in_bounds dem outlet) ∧
  (check_outlet dem nodata outlet = inl NoDataOutlet
   ↔ in_bounds dem outlet ∧ is_nodata dem nodata outlet) ∧
  (∀ outlet_elev,
     check_outlet dem nodata outlet = inr outlet_elev
     ↔ in_bounds dem outlet ∧ ¬ is_nodata dem nodata outlet ∧
       outlet_elev = elev dem outlet).
Proof.
  unfold in_bounds.
  destruct (getitem 0%Q dem outlet) as [x|] eqn:Hget.
  - assert (indexable dem outlet) as Hidx.
    { apply dec_stable. intros Hn. apply getitem_none in Hn. congruence. }
    destruct (in_grid dem outlet) eqn:Hin.
    + pose proof Hin as Hins%in_grid_inside.
      rewrite getitem_in_grid in Hget by done. simplify_eq.
      destruct (has_data dem nodata outlet) eqn:Hdata.
      * pose proof Hdata as Hno%has_data_spec.
        rewrite (check_outlet_accepts dem nodata outlet Hin Hdata).
        split_and!; try (split; [done|tauto]).
        intros e. split; [by intros [= <-]|by intros (_ & _ & ->)].
      * pose proof (has_data_false outlet Hdata) as Hnd.
        rewrite (check_outlet_nodata dem nodata outlet Hin Hnd).
        split_and!; try (split; [done|tauto]).
    + assert (¬ inside (height dem) (width dem) outlet) as Hout.
      { intros Hins%in_grid_inside. congruence. }
      unfold check_outlet. rewrite Hget, Hin. simpl.
      split_and!; try (split; [done|tauto]).
  - pose proof Hget as Hidx%getitem_none.
    assert (¬ inside (height dem) (width dem) outlet) as Hout.
    { intros [? ?]. apply Hidx. unfold indexable. lia. }
    unfold check_outlet. rewrite Hget.
    split_and!; try (split; [done|tauto]).
Qed.
End OutletCases.

(** ** Cells and counts *)

Section CellsAndCounts.
Context {A : Type}.

Lemma aget_lookup (d : A) (a : ndarray A) i j row x :
  a !! i = Some row → row !! j = Some x →
  aget d a (Z.of_nat i, Z.of_nat j) = x.
Proof.
  intros Hi Hj. unfold aget. cbn [fst snd].
  rewrite (proj2 (Z.leb_le 0 (Z.of_nat i))) by lia.
  rewrite (proj2 (Z.leb_le 0 (Z.of_nat j))) by lia.
  cbn [andb]. rewrite !Nat2Z.id, Hi. cbn [mbind option_bind]. by rewrite Hj.
Qed.

(** Every entry of a well-shaped array is the value of a cell inside. *)
Lemma cell_of_entry (d : A) h w (a : ndarray A) row x :
  has_shape h w a → row ∈ a → x ∈ row →
  ∃ p, inside h w p ∧ aget d a p = x.
Proof.
  intros [Hl Hr] (i & Hi)%list_elem_of_lookup (j & Hj)%list_elem_of_lookup.
  exists (Z.of_nat i, Z.of_nat j). split; [|by eapply aget_lookup].
  rewrite Forall_lookup in Hr. specialize (Hr _ _ Hi).
  apply lookup_lt_Some in Hi. apply lookup_lt_Some in Hj.
  unfold inside. simpl. lia.
Qed.

Lemma length_concat_shape h w (a : ndarray A) :
  has_shape h w a → length (concat a) = (Z.to_nat h * Z.to_nat w)%nat.
Proof.
  intros [Hl Hr]. subst h. rewrite Nat2Z.id.
  induction a as [|row a IH]; [done|].
  apply Forall_cons in Hr as [Hrow Hr]. simpl.
  rewrite length_app, IH by done. lia.
Qed.
End CellsAndCounts.

Section CountCompare.
Context (P Q : Z → Prop) `{!∀ x, Decision (P x)} `{!∀ x, Decision (Q x)}.

Lemma filter_length_mono (l1 : list Z) : ∀ l2 : list Z,
  length l1 = length l2 →
  (∀ j x y, l1 !! j = Some x → l2 !! j = Some y → P x → Q y) →
  (length (filter P l1) ≤ length (filter Q l2))%nat.
Proof.
  induction l1 as [|x l1 IH]; intros [|y l2] Hlen Hpt; simplify_eq/=; [done|].
  rewrite !filter_cons.
  assert (length (filter P l1) ≤ length (filter Q l2))%nat as Hrec.
  { apply IH; [done|]. intros j. apply (Hpt (S j)). }
  pose proof (Hpt 0%nat x y eq_refl eq_refl) as Hhead.
  repeat case_decide; simpl; try lia. tauto.
Qed.

Lemma count_if_mono_rows (a1 : ndarray Z) : ∀ a2 : ndarray Z,
  length a1 = length a2 →
  (∀ i r1 r2, a1 !! i = Some r1 → a2 !! i = Some r2 →
              (length (filter P r1) ≤ length (filter Q r2))%nat) →
  (count_if P a1 ≤ count_if Q a2)%nat.
Proof.
  unfold count_if.
  induction a1 as [|r1 a1 IH]; intros [|r2 a2] Hlen Hrows; simplify_eq/=;
    [done|].
  rewrite !filter_app, !length_app.
  pose proof (Hrows 0%nat r1 r2 eq_refl eq_refl).
  assert (length (filter P (concat a1)) ≤ length (filter Q (concat a2)))%nat.
  { apply IH; [done|]. intros i. apply (Hrows (S i)). }
  lia.
Qed.

(** Counting is monotone: if wherever [P] holds in [a1], [Q] holds in
    [a2] at the same cell, then [a2] has at least as many [Q] cells. *)
Lemma count_if_mono h w (a1 a2 : ndarray Z) :
  has_shape h w a1 → has_shape h w a2 →
  (∀ p, inside h w p → P (aget 0 a1 p) → Q (aget 0 a2 p)) →
  (count_if P a1 ≤ count_if Q a2)%nat.
Proof.
  intros [Hl1 Hr1] [Hl2 Hr2] Hpt. apply count_if_mono_rows; [lia|].
  intros i r1 r2 Hi1 Hi2.
  rewrite Forall_lookup in Hr1. rewrite Forall_lookup in Hr2.
  pose proof (Hr1 _ _ Hi1). pose proof (Hr2 _ _ Hi2).
  apply filter_length_mono; [lia|].
  intros j x y Hx Hy HP.
  rewrite <- (aget_lookup 0 a2 i j r2 y Hi2 Hy).
  apply Hpt.
  - apply lookup_lt_Some in Hi1. apply lookup_lt_Some in Hx.
    unfold inside. simpl. lia.
  - by rewrite (aget_lookup 0 a1 i j r1 x Hi1 Hx).
Qed.
End CountCompare.

(** The cells that hold 0 and the cells that do not make up the array. *)
Lemma count_if_zero_nonzero h w (a : ndarray Z) :
  has_shape h w a →
  (count_if (λ x, x ≠ 0%Z) a + count0 a = Z.to_nat h * Z.to_nat w)%nat.
Proof.
  intros Hs. rewrite <- (length_concat_shape h w a Hs).
  unfold count0, count_if. induction (concat a) as [|x l IH]; [done|].
  rewrite !filter_cons. repeat case_decide; simpl; lia.
Qed.

(** ** A run against the description of its report *)

Section Described.
Context (dem : ndarray Q) (nodata : option Q) (ar : arith) (outlet : cell).
Local Abbreviation h := (height dem).
Local Abbreviation w := (width dem).

(** Step 2 in terms of the grid alone, given a mask that holds
    [Default] on the default area and [Unvisited] elsewhere, and its
    boundary set. *)
Lemma flooded_flood_spec (flood_level : Q) (m : ndarray Z) (B : gset cell)
    (p : cell) :
  (∀ q, aget 0 m q = Default ↔ downhill dem nodata outlet q) →
  (∀ q, aget 0 m q = Unvisited ∨ aget 0 m q = Default) →
  (∀ b, b ∈ B ↔ on_boundary dem m b) →
  flooded dem nodata ar flood_level m B p
  ↔ flood_spec dem nodata ar outlet flood_level p.
Proof.
  intros Hdown Hvals HB.
  assert (∀ q, aget 0 m q = Unvisited ↔ ¬ downhill dem nodata outlet q)
    as Hun.
  { intros q. rewrite <- Hdown. destruct (Hvals q) as [Hv|Hv]; rewrite Hv;
      split; done. }
  assert (∀ q, rim_admitted dem nodata ar flood_level m B q
               ↔ rim_spec dem nodata ar outlet flood_level q) as Hrim.
  { intros q. unfold rim_admitted, rim_spec. rewrite Hun. split.
    - intros (Hq & Hin & Hdata & b & Hb & Hadj & Hle).
      split_and!; try done. exists b. split_and!; try done.
      apply HB in Hb as [Hb _]. by apply Hdown.
    - intros (Hq & Hin & Hdata & b & Hb & Hadj & Hle).
      split_and!; try done. exists b. split_and!; try done.
      apply HB. split; [by apply Hdown|]. exists q. split_and!; try done.
      by apply Hun. }
  split.
  - induction 1 as [q Hq|p q _ IH Hstep Hz].
    + by apply flood_spec_rim, Hrim.
    + apply flood_spec_next with p; [done..|]. by apply Hun.
  - induction 1 as [q Hq|p q _ IH Hstep Hz].
    + by apply flooded_rim, Hrim.
    + apply flooded_next with p; [done..|]. by apply Hun.
Qed.

(** The report of a run from a validated outlet is the one described,
    whatever the schedule and the iteration order. *)
Lemma run_described (order : gset cell → list cell) (flood_level : Q)
    (sch : schedule) (a e : Q) :
  visits_each_once order → fair sch →
  in_grid dem outlet = true → has_data dem nodata outlet = true →
  ∃ r, main_with dem nodata ar order flood_level sch outlet a e = Returns r ∧
       described dem nodata ar outlet flood_level a e r.
Proof.
  intros Horder Hfair Hin Hdata.
  destruct (main_with_spec dem nodata ar order Horder flood_level sch Hfair
              outlet a e Hin Hdata)
    as (st & st2 & adm1 & adm2 & Hdel & _ & Hmain & Hmk1 & Hmk2 & Hdown
        & Hvals & Hfl).
  eexists. split; [exact Hmain|].
  pose proof (mk_shape _ _ _ _ _ _ Hmk1) as Hs.
  destruct (delineation_count dem nodata _ _ _ Hmk1)
    as (Hd2 & Hd1 & Hdp & Hdn & _).
  destruct (expansion_count dem nodata _ _ _ Hs Hmk2)
    as (He1 & He2 & Hep & Hen & _).
  assert (∀ b, b ∈ find_boundary dem sch (command_mask st)
               ↔ on_boundary dem (command_mask st) b) as HB.
  { intros b. by apply find_boundary_on_boundary. }
  assert (∀ b, on_boundary dem (command_mask st) b
               ↔ boundary_spec dem nodata outlet b) as HB'.
  { intros b. unfold on_boundary, boundary_spec. rewrite Hdown.
    split; intros (Hb & q & Hadj & Hq & Hz); (split; [done|]); exists q;
      (split_and!; [done..|]).
    - rewrite <- Hdown, Hz. done.
    - rewrite <- Hdown in Hz. by destruct (Hvals q). }
  split; cbn [mask default_area boundary_cells expansion_cells pixel_area
              total_pixels total_area flood_expansion_area].
  - by destruct Hmk2.
  - intros p. destruct (final_mask_cases dem nodata _ _ _ p Hmk2 Hvals)
      as [[-> _]|[-> _]]; [by right; right|].
    destruct (Hvals p) as [-> | ->]; [by left|by right; left].
  - intros p. rewrite <- Hdown.
    destruct (final_mask_cases dem nodata _ _ _ p Hmk2 Hvals)
      as [[H2 Hz]|[Heq _]]; [|by rewrite Heq].
    rewrite H2, Hz. done.
  - intros p. rewrite Hfl.
    by rewrite (flooded_flood_spec flood_level _ _ p Hdown Hvals HB).
  - unfold Default. by rewrite He1.
  - destruct (Qlt_le_dec 0 flood_level) as [Hpos|Hle]; [|done].
    split; [done|]. intros b. by rewrite HB, HB'.
  - unfold FloodExpansion. destruct (Qlt_le_dec 0 flood_level); [|done].
    f_equal. lia.
  - done.
  - unfold Unvisited. f_equal. lia.
  - done.
  - unfold FloodExpansion. destruct (Qlt_le_dec 0 flood_level); [|done].
    f_equal. lia.
Qed.

(** The description leaves no choice. *)
Lemma described_unique (flood_level a e : Q) (r1 r2 : report) :
  described dem nodata ar outlet flood_level a e r1 →
  described dem nodata ar outlet flood_level a e r2 →
  outputs r1 = outputs r2.
Proof.
  intros [Hs1 Hv1 Hd1 Hf1 Hda1 Hb1 He1 Hpa1 Htp1 Hta1 Hfe1]
         [Hs2 Hv2 Hd2 Hf2 Hda2 Hb2 He2 Hpa2 Htp2 Hta2 Hfe2].
  assert (mask r1 = mask r2) as Hmask.
  { apply (ndarray_ext 0 h w); [done..|]. intros p _.
    destruct (Hv1 p) as [H1|[H1|H1]], (Hv2 p) as [H2|[H2|H2]];
      rewrite H1, H2; try done; exfalso.
    - apply Hd2, Hd1 in H2. by rewrite H1 in H2.
    - apply Hf2, Hf1 in H2. by rewrite H1 in H2.
    - apply Hd1, Hd2 in H1. by rewrite H2 in H1.
    - apply Hd1, Hd2 in H1. by rewrite H2 in H1.
    - apply Hf1, Hf2 in H1. by rewrite H2 in H1.
    - apply Hf1, Hf2 in H1. by rewrite H2 in H1. }
  assert (boundary_cells r1 = boundary_cells r2) as Hbc.
  { destruct (boundary_cells r1) as [B1|], (boundary_cells r2) as [B2|].
    - f_equal. apply set_eq. intros b.
      destruct Hb1 as [_ Hb1], Hb2 as [_ Hb2]. by rewrite Hb1, Hb2.
    - destruct Hb1 as [Hpos _]. by apply Qlt_not_le in Hpos.
    - destruct Hb2 as [Hpos _]. by apply Qlt_not_le in Hpos.
    - done. }
  unfold outputs.
  rewrite Hbc, He1, He2, Hfe1, Hfe2, Hta1, Hta2, Hpa1, Hpa2, Htp1, Htp2,
    Hda1, Hda2, Hmask. done.
Qed.
End Described.

(** With no occurrence of the sentinel in the grid, the description with
    the sentinel is the description without one. *)
Lemma described_without_nodata (dem : ndarray Q) (ar : arith) (nd : Q)
    (outlet : cell) (flood_level a e : Q) (r : report) :
  nodata_free dem (Some nd) →
  described dem (Some nd) ar outlet flood_level a e r →
  described dem None ar outlet flood_level a e r.
Proof.
  intros Hfree.
  assert (∀ p q, downhill_step dem (Some nd) p q ↔ downhill_step dem None p q)
    as Hstep.
  { intros p q. unfold downhill_step. split;
      intros (Hadj & Hin & Hdata & Hle); split_and!; try done.
    - by intros (nd' & ? & _).
    - by apply Hfree. }
  assert (∀ p, downhill dem (Some nd) outlet p ↔ downhill dem None outlet p)
    as Hdown.
  { intros p. split; induction 1 as [|p q _ IH Hs]; try constructor.
    - apply downhill_next with p; [done|]. by apply Hstep.
    - apply downhill_next with p; [done|]. by apply Hstep. }
  assert (∀ q, rim_spec dem (Some nd) ar outlet flood_level q
               ↔ rim_spec dem None ar outlet flood_level q) as Hrim.
  { intros q. unfold rim_spec. rewrite Hdown. split;
      intros (Hq & Hin & Hdata & b & Hb & Hrest);
      (split_and!; [done|done| |exists b; by rewrite ?Hdown in *]).
    - by intros (nd' & ? & _).
    - by apply Hfree. }
  assert (∀ p, flood_spec dem (Some nd) ar outlet flood_level p
               ↔ flood_spec dem None ar outlet flood_level p) as Hflood.
  { intros p. split; induction 1 as [q Hq|p q _ IH Hs Hz].
    - by apply flood_spec_rim, Hrim.
    - apply flood_spec_next with p; [done|by apply Hstep|by rewrite <- Hdown].
    - by apply flood_spec_rim, Hrim.
    - apply flood_spec_next with p; [done|by apply Hstep|by rewrite Hdown]. }
  intros [Hs Hv Hd Hf Hda Hb He Hpa Htp Hta Hfe].
  split; try done.
  - intros p. by rewrite Hd, Hdown.
  - intros p. by rewrite Hf, Hflood.
  - destruct (boundary_cells r) as [B|]; [|done].
    destruct Hb as [Hpos Hb]. split; [done|]. intros b. rewrite Hb.
    unfold boundary_spec. rewrite Hdown.
    split; intros (Hb' & q & Hadj & Hin & Hq); (split; [done|]); exists q;
      (split_and!; [done..|]); by rewrite ?Hdown in *.
Qed.

(** ** How a run ends *)

Section Outcome.
Context (dem : ndarray Q) (nodata : option Q).
Context (ar : arith).

(** Every run raises the error of the outlet block or returns the report
    described; it never runs out of fuel. *)
Lemma main_with_outcome (order : gset cell → list cell) (flood_level : Q)
    (sch : schedule) (outlet : cell) (a e : Q) :
  visits_each_once order → fair sch →
  match main_with dem nodata ar order flood_level sch outlet a e with
  | Returns r =>
      described dem nodata ar outlet flood_level a e r ∧
      in_bounds dem outlet ∧ ¬ is_nodata dem nodata outlet
  | Raises err => check_outlet dem nodata outlet = inl err
  | OutOfFuel => False
  end.
Proof.
  intros Horder Hfair.
  destruct (check_outlet dem nodata outlet) as [err|e0] eqn:Hc.
  - by rewrite (main_with_raises _ _ ar _ _ _ _ _ _ err Hc).
  - apply check_outlet_ok in Hc as [Hin Hdata].
    destruct (run_described dem nodata ar outlet order flood_level sch a e
                Horder Hfair Hin Hdata) as (r & -> & Hr).
    split_and!; [done|by apply in_grid_inside|by apply has_data_spec].
Qed.

(** Along a downhill chain the elevation never exceeds the outlet's. *)
Lemma downhill_elev (outlet p : cell) :
  downhill dem nodata outlet p → (elev dem p <= elev dem outlet)%Q.
Proof.
  induction 1 as [|p q _ IH (_ & _ & _ & Hle)]; [apply Qle_refl|].
  by eapply Qle_trans.
Qed.

(** A downhill chain from a cell of the grid stays in the grid. *)
Lemma downhill_in_bounds (outlet p : cell) :
  in_bounds dem outlet → downhill dem nodata outlet p → in_bounds dem p.
Proof. intros Hin. by destruct 1 as [|p q _ (_ & Hq & _)]. Qed.

(** A flooded cell is not higher than the sum the run computes for the
    outlet. *)
Lemma flood_spec_elev (outlet : cell) (flood_level : Q) (p : cell) :
  in_bounds dem outlet →
  sum_follows_elevation dem ar outlet flood_level →
  flood_spec dem nodata ar outlet flood_level p →
  (elev dem p <= arith_add ar (elev dem outlet) flood_level)%Q.
Proof.
  intros Hin Hmono.
  induction 1 as [q (_ & _ & _ & b & Hb & _ & Hle)|p q _ IH (_ & _ & _ & Hle) _].
  - eapply Qle_trans; [done|].
    apply Hmono; [by apply (downhill_in_bounds outlet)|].
    by apply downhill_elev.
  - by eapply Qle_trans.
Qed.

(** A larger tolerance floods at least as much. *)
Lemma flood_spec_mono (outlet : cell) (fl1 fl2 : Q) (p : cell) :
  in_bounds dem outlet → tolerance_grows dem ar fl1 fl2 →
  flood_spec dem nodata ar outlet fl1 p → flood_spec dem nodata ar outlet fl2 p.
Proof.
  intros Hout Hmono.
  induction 1 as [q (Hq & Hin & Hdata & b & Hb & Hadj & Hqle)|p q _ IH Hs Hz].
  - apply flood_spec_rim. split_and!; try done. exists b. split_and!; try done.
    eapply Qle_trans; [done|]. apply Hmono.
    by apply (downhill_in_bounds outlet).
  - by apply flood_spec_next with p.
Qed.

(** A cell that satisfies [P] is counted. *)
Lemma count_if_pos (P : Z → Prop) `{!∀ x, Decision (P x)} (a : ndarray Z)
    (p : cell) :
  has_shape (height dem) (width dem) a → in_bounds dem p →
  P (aget 0 a p) → (1 ≤ count_if P a)%nat.
Proof.
  intros [Hl Hr] [[H1 H2] [H3 H4]] HP. unfold count_if.
  destruct (lookup_lt_is_Some_2 a (Z.to_nat p.1)) as [row Hrow]; [lia|].
  rewrite Forall_lookup in Hr. pose proof (Hr _ _ Hrow) as Hlen.
  destruct (lookup_lt_is_Some_2 row (Z.to_nat p.2)) as [x Hx]; [lia|].
  pose proof (aget_lookup 0 a _ _ _ _ Hrow Hx) as Hget.
  rewrite !Z2Nat.id in Hget by lia.
  replace (p.1, p.2) with p in Hget by by destruct p.
  assert (x ∈ filter P (concat a)) as Hin.
  { apply list_elem_of_filter. split; [by rewrite <- Hget|].
    apply list_elem_of_In, in_concat. exists row.
    split; apply list_elem_of_In; by eapply list_elem_of_lookup_2. }
  destruct (filter P (concat a)); [by apply elem_of_nil in Hin|simpl; lia].
Qed.
End Outcome.

(** ** Runs under two arithmetics *)

Section Agreement.
Context (dem : ndarray Q) (nodata : option Q) (outlet : cell).

(** Arithmetics that decide alike every comparison of a cell of the grid
    with the sum for a cell of the default area flood the same cells. *)
Lemma flood_spec_agree (ar1 ar2 : arith) (flood_level : Q) :
  (∀ b q, downhill dem nodata outlet b → in_bounds dem q →
     (elev dem q <= arith_add ar1 (elev dem b) flood_level)%Q
     ↔ (elev dem q <= arith_add ar2 (elev dem b) flood_level)%Q) →
  ∀ p, flood_spec dem nodata ar1 outlet flood_level p
       ↔ flood_spec dem nodata ar2 outlet flood_level p.
Proof.
  intros Hagree.
  assert (∀ q, rim_spec dem nodata ar1 outlet flood_level q
               ↔ rim_spec dem nodata ar2 outlet flood_level q) as Hrim.
  { intros q. unfold rim_spec. split;
      intros (Hq & Hin & Hdata & b & Hb & Hadj & Hle);
      (split_and!; [done..|]); exists b; (split_and!; [done..|]);
      by apply (Hagree b q). }
  intros p. split; induction 1 as [q Hq|p q _ IH Hs Hz].
  - by apply flood_spec_rim, Hrim.
  - by apply flood_spec_next with p.
  - by apply flood_spec_rim, Hrim.
  - by apply flood_spec_next with p.
Qed.

(** Reports described under two arithmetics that flood the same cells
    have the same mask and the same pixel counts. *)
Lemma described_same_mask (ar1 ar2 : arith) (flood_level a1 e1 a2 e2 : Q)
    (r1 r2 : report) :
  described dem nodata ar1 outlet flood_level a1 e1 r1 →
  described dem nodata ar2 outlet flood_level a2 e2 r2 →
  (∀ p, flood_spec dem nodata ar1 outlet flood_level p
        ↔ flood_spec dem nodata ar2 outlet flood_level p) →
  mask r1 = mask r2 ∧ default_area r1 = default_area r2 ∧
  total_pixels r1 = total_pixels r2.
Proof.
  intros [Hs1 Hv1 Hd1 Hf1 Hda1 _ _ _ Htp1 _ _]
         [Hs2 Hv2 Hd2 Hf2 Hda2 _ _ _ Htp2 _ _] Hsame.
  assert (∀ p, aget 0 (mask r1) p = FloodExpansion
               ↔ aget 0 (mask r2) p = FloodExpansion) as Hf.
  { intros p. by rewrite Hf1, Hf2, Hsame. }
  assert (mask r1 = mask r2) as Hmask.
  { apply (ndarray_ext 0 (height dem) (width dem)); [done..|]. intros p _.
    destruct (Hv1 p) as [H1|[H1|H1]], (Hv2 p) as [H2|[H2|H2]];
      rewrite H1, H2; try done; exfalso.
    - apply Hd2, Hd1 in H2. by rewrite H1 in H2.
    - apply Hf in H2. by rewrite H1 in H2.
    - apply Hd1, Hd2 in H1. by rewrite H2 in H1.
    - apply Hd1, Hd2 in H1. by rewrite H2 in H1.
    - apply Hf in H1. by rewrite H2 in H1.
    - apply Hf in H1. by rewrite H2 in H1. }
  by rewrite Hda1, Hda2, Htp1, Htp2, Hmask.
Qed.
End Agreement.

(** ** The 3×3 grid *)

(** Every cell of the grid but the centre has elevation 10. *)
Lemma bowl_elev (q : cell) :
  in_bounds bowl q → q = (1, 1) ∨ (elev bowl q == 10)%Q.
Proof.
  intros Hq.
  pose proof (forall_cells bowl
                (λ q, bool_decide (q = (1, 1))
                      || Qeq_bool (elev bowl q) 10)) as Hall.
  specialize (Hall eq_refl q Hq). apply orb_true_iff in Hall.
  destruct Hall as [H|H]; [left|right].
  - by apply bool_decide_eq_true in H.
  - by apply Qeq_bool_iff.
Qed.

(** No downhill step leaves the centre. *)
Lemma bowl_downhill (b : cell) : downhill bowl None (1, 1) b → b = (1, 1).
Proof.
  induction 1 as [|p q _ -> (Hadj & Hin & _ & Hle)]; [done|].
  destruct (bowl_elev q Hin) as [->|Hq]; [done|].
  rewrite Hq in Hle. by vm_compute in Hle.
Qed.

(** An arithmetic whose sum of 5 and 5 is not below 10 floods the grid
    as arithmetic without rounding does. *)
Lemma bowl_flood_spec_agree (ar : arith) :
  (10 <= arith_add ar 5 5)%Q →
  ∀ p, flood_spec bowl None ar (1, 1) 5 p
       ↔ flood_spec bowl None exact_arith (1, 1) 5 p.
Proof.
  intros Hsum. apply flood_spec_agree.
  intros b q Hb%bowl_downhill Hq. subst b.
  change (elev bowl (1, 1)) with 5%Q.
  assert (elev bowl q <= 10)%Q as Hle.
  { destruct (bowl_elev q Hq) as [Heq|Heq];
      [subst q|rewrite Heq]; by vm_compute. }
  split; intros _; [done|by eapply Qle_trans].
Qed.

(** C8.  On the 3×3 grid with the outlet at the centre: with flood level 0
    only the centre is [Default] and one pixel is counted; with flood
    level 5, when the sum of 5 and 5 the arithmetic of the run computes
    is not below 10, the centre is [Default], the eight cells around it
    are [FloodExpansion] and nine pixels are counted. *)
Theorem bowl_scenarios (ar : arith) (order : gset cell → list cell)
    (a e : Q) :
  visits_each_once order →
  (∃ r, main bowl None ar order 0%Q (1, 1) a e = Returns r ∧
        mask r = [[0; 0; 0]; [0; 1; 0]; [0; 0; 0]] ∧
        total_pixels r = 1) ∧
  ((10 <= arith_add ar 5 5)%Q →
   ∃ r, main bowl None ar order 5%Q (1, 1) a e = Returns r ∧
        mask r = [[2; 2; 2]; [2; 1; 2]; [2; 2; 2]] ∧
        total_pixels r = 9).
Proof.
  intros Horder.
  assert (visits_each_once elements) as Hel by (intros s; reflexivity).
  split.
  - pose proof (main_order_irrelevant bowl None ar 0%Q (1, 1) a e
                  order elements Horder Hel) as Hsame.
    remember (main bowl None ar elements 0%Q (1, 1) a e) as res eqn:Hres.
    vm_compute in Hres. subst res.
    destruct (main bowl None ar order 0%Q (1, 1) a e) as [| |r]; try done.
    exists r. unfold outputs in Hsame.
    injection Hsame as Hm _ _ _ _ Ht _ _. by rewrite Hm, Ht.
  - intros Hsum.
    destruct (run_described bowl None ar (1, 1) order 5%Q source_schedule
                a e Horder fair_source_schedule eq_refl eq_refl)
      as (r & Hr & Hd).
    destruct (run_described bowl None exact_arith (1, 1) elements 5%Q
                source_schedule a e Hel fair_source_schedule eq_refl eq_refl)
      as (r' & Hr' & Hd').
    destruct (described_same_mask bowl None (1, 1) ar exact_arith 5%Q
                a e a e r r' Hd Hd' (bowl_flood_spec_agree ar Hsum))
      as (Hm & _ & Ht).
    exists r. split; [exact Hr|]. rewrite Hm, Ht.
    vm_compute in Hr'. by injection Hr' as <-.
Qed.

Lemma bowl_scenarios_witness :
  (∃ r, main bowl None binary64 elements 0%Q (1, 1) tenth (- tenth)%Q
        = Returns r ∧
        mask r = [[0; 0; 0]; [0; 1; 0]; [0; 0; 0]] ∧
        total_pixels r = 1) ∧
  (∃ r, main bowl None binary64 elements 5%Q (1, 1) tenth (- tenth)%Q
        = Returns r ∧
        mask r = [[2; 2; 2]; [2; 1; 2]; [2; 2; 2]] ∧
        total_pixels r = 9).
Proof.
  destruct (bowl_scenarios binary64 elements tenth (- tenth)%Q)
    as [Hzero Hfive].
  - intros s. reflexivity.
  - split; [exact Hzero|]. apply Hfive. by vm_compute.
Defined.

(** ** Further properties of a run *)

(** X2 (lines 82-157).  The mask a run returns has the shape of the
    elevation grid, and each of its entries is 0, 1 or 2. *)
Theorem final_mask_is_a_classification
    (dem : ndarray Q) (nodata : option Q) (ar : arith)
    (order : gset cell → list cell)
    (flood_level : Q) (outlet : cell) (a e : Q) :
  visits_each_once order →
  match main dem nodata ar order flood_level outlet a e with
  | Returns r =>
      has_shape (height dem) (width dem) (mask r) ∧
      Forall (Forall (λ v, v = Unvisited ∨ v = Default ∨ v = FloodExpansion))
             (mask r)
  | Raises _ => True
  | OutOfFuel => False
  end.
Proof.
  intros Horder.
  pose proof (main_with_outcome dem nodata ar order flood_level source_schedule
                outlet a e Horder fair_source_schedule) as Hout.
  unfold main.
  destruct (main_with _ _ ar _ _ _ _ _ _) as [err| |r]; [done|done|].
  destruct Hout as ([Hs Hv _ _ _ _ _ _ _ _ _] & _ & _).
  split; [done|].
  apply Forall_forall. intros row Hrow. apply Forall_forall. intros x Hx.
  destruct (cell_of_entry 0 _ _ _ _ _ Hs Hrow Hx) as (p & _ & <-). apply Hv.
Qed.

Lemma final_mask_is_a_classification_witness :
  match main bowl None binary64 elements 5%Q (1, 1) 1%Q (-1)%Q with
  | Returns r =>
      has_shape (height bowl) (width bowl) (mask r) ∧
      Forall (Forall (λ v, v = Unvisited ∨ v = Default ∨ v = FloodExpansion))
             (mask r)
  | Raises _ => True
  | OutOfFuel => False
  end.
Proof.
  apply (final_mask_is_a_classification bowl None binary64 elements 5%Q (1, 1)
           1%Q (-1)%Q).
  intros s. reflexivity.
Defined.

(** X3 (lines 82-157).  The returned mask read off the grid and the
    arithmetic alone: a cell is [Default] iff a downhill chain reaches it
    from the outlet; [FloodExpansion] iff the flood level is positive and
    the cell lies on the rim of the default area, not higher than the sum
    the arithmetic of the run gives for a default cell next to it and the
    flood level, or is reached from the rim by downhill steps outside the
    default area; [Unvisited] otherwise.  The boundary set, when computed,
    is the set of default cells with an in-bounds neighbour outside the
    default area. *)
Theorem final_mask_from_the_grid_alone
    (dem : ndarray Q) (nodata : option Q) (ar : arith)
    (order : gset cell → list cell)
    (flood_level : Q) (outlet : cell) (a e : Q) :
  visits_each_once order →
  match main dem nodata ar order flood_level outlet a e with
  | Returns r =>
      (∀ p, aget 0 (mask r) p = Default ↔ downhill dem nodata outlet p) ∧
      (∀ p, aget 0 (mask r) p = FloodExpansion
            ↔ (0 < flood_level)%Q ∧
              flood_spec dem nodata ar outlet flood_level p) ∧
      (∀ p, aget 0 (mask r) p = Unvisited
            ↔ ¬ downhill dem nodata outlet p ∧
              ¬ ((0 < flood_level)%Q ∧
                 flood_spec dem nodata ar outlet flood_level p)) ∧
      match boundary_cells r with
      | Some B => ∀ b, b ∈ B ↔ boundary_spec dem nodata outlet b
      | None => (flood_level <= 0)%Q
      end
  | Raises _ => True
  | OutOfFuel => False
  end.
Proof.
  intros Horder.
  pose proof (main_with_outcome dem nodata ar order flood_level source_schedule
                outlet a e Horder fair_source_schedule) as Hout.
  unfold main.
  destruct (main_with _ _ ar _ _ _ _ _ _) as [err| |r]; [done|done|].
  destruct Hout as ([Hs Hv Hd Hf _ Hb _ _ _ _ _] & _ & _).
  split_and!; [done|done| |].
  - intros p. rewrite <- Hd, <- Hf.
    destruct (Hv p) as [Hp|[Hp|Hp]]; rewrite Hp; split; try done.
    + by intros [? _].
    + by intros [_ ?].
  - destruct (boundary_cells r) as [B|]; [by destruct Hb|done].
Qed.

Lemma final_mask_from_the_grid_alone_witness :
  match main hairline None binary64 elements tiny_flood_level (0, 0)
             tenth (- tenth)%Q with
  | Returns r =>
      (∀ p, aget 0 (mask r) p = Default ↔ downhill hairline None (0, 0) p) ∧
      (∀ p, aget 0 (mask r) p = FloodExpansion
            ↔ (0 < tiny_flood_level)%Q ∧
              flood_spec hairline None binary64 (0, 0) tiny_flood_level p) ∧
      (∀ p, aget 0 (mask r) p = Unvisited
            ↔ ¬ downhill hairline None (0, 0) p ∧
              ¬ ((0 < tiny_flood_level)%Q ∧
                 flood_spec hairline None binary64 (0, 0) tiny_flood_level p)) ∧
      match boundary_cells r with
      | Some B => ∀ b, b ∈ B ↔ boundary_spec hairline None (0, 0) b
      | None => (tiny_flood_level <= 0)%Q
      end
  | Raises _ => True
  | OutOfFuel => False
  end.
Proof.
  apply (final_mask_from_the_grid_alone hairline None binary64 elements
           tiny_flood_level (0, 0) tenth (- tenth)%Q).
  intros s. reflexivity.
Defined.

(** X4 (lines 92-157).  No cell of the command area lies above the
    outlet by more than the flood level: a [Default] cell is not higher
    than the outlet, a [FloodExpansion] cell not higher than the sum the
    arithmetic of the run gives for the outlet's elevation and the flood
    level, provided that sum is not below the sum for any cell of the
    grid that is not higher than the outlet. *)
Theorem command_area_lies_below_outlet_plus_flood_level
    (dem : ndarray Q) (nodata : option Q) (ar : arith)
    (order : gset cell → list cell)
    (flood_level : Q) (outlet : cell) (a e : Q) :
  visits_each_once order →
  match main dem nodata ar order flood_level outlet a e with
  | Returns r =>
      (∀ p, aget 0 (mask r) p = Default →
            (elev dem p <= elev dem outlet)%Q) ∧
      (sum_follows_elevation dem ar outlet flood_level →
       ∀ p, aget 0 (mask r) p = FloodExpansion →
            (elev dem p <= arith_add ar (elev dem outlet) flood_level)%Q)
  | Raises _ => True
  | OutOfFuel => False
  end.
Proof.
  intros Horder.
  pose proof (main_with_outcome dem nodata ar order flood_level source_schedule
                outlet a e Horder fair_source_schedule) as Hout.
  unfold main.
  destruct (main_with _ _ ar _ _ _ _ _ _) as [err| |r]; [done|done|].
  destruct Hout as ([_ _ Hd Hf _ _ _ _ _ _ _] & Hin & _).
  split; [intros p Hp|intros Hsum p Hp].
  - apply Hd in Hp. by eapply downhill_elev.
  - apply Hf in Hp as [_ Hp]. by apply (flood_spec_elev dem nodata).
Qed.

(** On the two cells one unit in the last place apart, double precision
    gives the sum for the lower cell the larger of the two elevations. *)
Lemma hairline_sum_follows_elevation :
  sum_follows_elevation hairline binary64 (0, 0) tiny_flood_level.
Proof.
  intros b Hb Hle. apply Qle_bool_iff. apply Qle_bool_iff in Hle.
  revert Hle. apply implb_true_iff. revert b Hb.
  apply (forall_cells hairline
           (λ b, implb (Qle_bool (elev hairline b) (elev hairline (0, 0)))
                       (Qle_bool
                          (arith_add binary64 (elev hairline b)
                             tiny_flood_level)
                          (arith_add binary64 (elev hairline (0, 0))
                             tiny_flood_level)))).
  by vm_compute.
Qed.

Lemma command_area_lies_below_outlet_plus_flood_level_witness :
  match main hairline None binary64 elements tiny_flood_level (0, 0)
             tenth (- tenth)%Q with
  | Returns r =>
      (∀ p, aget 0 (mask r) p = Default →
            (elev hairline p <= elev hairline (0, 0)%Z)%Q) ∧
      (∀ p, aget 0 (mask r) p = FloodExpansion →
            (elev hairline p
             <= arith_add binary64 (elev hairline (0, 0)%Z) tiny_flood_level)%Q)
  | Raises _ => True
  | OutOfFuel => False
  end.
Proof.
  pose proof (command_area_lies_below_outlet_plus_flood_level hairline None
                binary64 elements tiny_flood_level (0, 0) tenth (- tenth)%Q)
    as Hrun.
  destruct (main hairline None binary64 elements tiny_flood_level (0, 0)
              tenth (- tenth)%Q) as [err| |r].
  - exact I.
  - apply Hrun. intros s. reflexivity.
  - destruct Hrun as [Hdefault Hflood]; [intros s; reflexivity|].
    split; [exact Hdefault|exact (Hflood hairline_sum_follows_elevation)].
Defined.

(** X5 (lines 92-157).  The command area is 8-connected: every cell with
    a non-zero mask value is joined to the outlet by 8-connected steps
    through cells with a non-zero mask value. *)
Theorem command_area_is_connected
    (dem : ndarray Q) (nodata : option Q) (ar : arith)
    (order : gset cell → list cell)
    (flood_level : Q) (outlet : cell) (a e : Q) :
  visits_each_once order →
  match main dem nodata ar order flood_level outlet a e with
  | Returns r =>
      ∀ p, aget 0 (mask r) p ≠ Unvisited → linked (mask r) outlet p
  | Raises _ => True
  | OutOfFuel => False
  end.
Proof.
  intros Horder.
  pose proof (main_with_outcome dem nodata ar order flood_level source_schedule
                outlet a e Horder fair_source_schedule) as Hout.
  unfold main.
  destruct (main_with _ _ ar _ _ _ _ _ _) as [err| |r]; [done|done|].
  destruct Hout as ([_ Hv Hd Hf _ _ _ _ _ _ _] & _ & _).
  assert (∀ p, downhill dem nodata outlet p → linked (mask r) outlet p)
    as Hdown.
  { induction 1 as [|p q Hp IH Hstep]; [constructor|].
    apply linked_next with p; [done|by destruct Hstep|].
    assert (aget 0 (mask r) q = Default) as ->; [|done].
    apply Hd. by apply downhill_next with p. }
  assert ((0 < flood_level)%Q →
          ∀ p, flood_spec dem nodata ar outlet flood_level p →
               linked (mask r) outlet p) as Hflood.
  { intros Hpos. induction 1 as [q Hq|p q Hp IH Hstep Hz].
    - pose proof Hq as (_ & _ & _ & b & Hb & Hadj & _).
      apply linked_next with b; [by apply Hdown|done|].
      assert (aget 0 (mask r) q = FloodExpansion) as ->; [|done].
      apply Hf. split; [done|]. by apply flood_spec_rim.
    - apply linked_next with p; [done|by destruct Hstep|].
      assert (aget 0 (mask r) q = FloodExpansion) as ->; [|done].
      apply Hf. split; [done|]. by apply flood_spec_next with p. }
  intros p Hp. destruct (Hv p) as [H0|[H1|H2]]; [done| |].
  - by apply Hdown, Hd.
  - apply Hf in H2 as [Hpos H2]. by apply Hflood.
Qed.

Lemma command_area_is_connected_witness :
  match main bowl None binary64 elements 5%Q (1, 1) 1%Q (-1)%Q with
  | Returns r =>
      ∀ p, aget 0 (mask r) p ≠ Unvisited → linked (mask r) (1, 1) p
  | Raises _ => True
  | OutOfFuel => False
  end.
Proof.
  apply (command_area_is_connected bowl None binary64 elements 5%Q (1, 1)
           1%Q (-1)%Q).
  intros s. reflexivity.
Defined.

(** X6 (lines 102, 163-166).  The figures add up: the outlet is always
    counted, the default count is at most the total, the total and the
    number of cells left [Unvisited] make up the whole grid, and the
    total area is not negative when the product of a count and a
    non-negative real, as the arithmetic of the run computes it, is not
    negative. *)
Theorem pixel_counts_add_up
    (dem : ndarray Q) (nodata : option Q) (ar : arith)
    (order : gset cell → list cell)
    (flood_level : Q) (outlet : cell) (a e : Q) :
  visits_each_once order →
  match main dem nodata ar order flood_level outlet a e with
  | Returns r =>
      1 ≤ default_area r ≤ total_pixels r ∧
      total_pixels r + Z.of_nat (count0 (mask r)) = height dem * width dem ∧
      (scale_keeps_sign ar → (0 <= total_area r)%Q)
  | Raises _ => True
  | OutOfFuel => False
  end.
Proof.
  intros Horder.
  pose proof (main_with_outcome dem nodata ar order flood_level source_schedule
                outlet a e Horder fair_source_schedule) as Hout.
  unfold main.
  destruct (main_with _ _ ar _ _ _ _ _ _) as [err| |r]; [done|done|].
  destruct Hout as ([Hs Hv Hd _ Hda _ _ Hpa Htp Hta _] & Hin & _).
  rewrite Hda, Htp.
  assert (1 ≤ count_if (λ x, x = Default) (mask r))%nat as H1.
  { apply (count_if_pos dem _ _ outlet Hs Hin). apply Hd. constructor. }
  assert (count_if (λ x, x = Default) (mask r)
          ≤ count_if (λ x, x ≠ Unvisited) (mask r))%nat as H2.
  { apply (count_if_mono _ _ _ _ _ _ Hs Hs). intros p _ ->. done. }
  pose proof (count_if_zero_nonzero _ _ _ Hs) as H3.
  split_and!; [lia|lia| |].
  - unfold Unvisited, height, width in *.
    destruct dem as [|row rows]; simpl in *; nia.
  - intros Hsign. rewrite Hta, Hpa, Htp.
    apply Hsign; [lia|apply Qabs_nonneg].
Qed.

Lemma pixel_counts_add_up_witness :
  match main bowl None binary64 elements 5%Q (1, 1) tenth (- tenth)%Q with
  | Returns r =>
      1 ≤ default_area r ≤ total_pixels r ∧
      total_pixels r + Z.of_nat (count0 (mask r)) = height bowl * width bowl ∧
      (0 <= total_area r)%Q
  | Raises _ => True
  | OutOfFuel => False
  end.
Proof.
  pose proof (pixel_counts_add_up bowl None binary64 elements 5%Q (1, 1)
                tenth (- tenth)%Q) as Hrun.
  destruct (main bowl None binary64 elements 5%Q (1, 1) tenth (- tenth)%Q)
    as [err| |r].
  - exact I.
  - apply Hrun. intros s. reflexivity.
  - destruct Hrun as (Hcount & Hgrid & Harea); [intros s; reflexivity|].
    split; [exact Hcount|].
    split; [exact Hgrid|exact (Harea binary64_scale_keeps_sign)].
Defined.

(** X7 (lines 84-157).  The assignments come in the order of the steps:
    the first one gives the outlet [Default]; the first [default_area]
    assignments all write [Default], and every later one writes
    [FloodExpansion]. *)
Theorem writes_follow_the_steps
    (dem : ndarray Q) (nodata : option Q) (ar : arith)
    (order : gset cell → list cell)
    (flood_level : Q) (outlet : cell) (a e : Q) :
  visits_each_once order →
  match main dem nodata ar order flood_level outlet a e with
  | Returns r =>
      trace r !! 0%nat = Some (outlet, Unvisited, Default) ∧
      Forall (λ en, en.2 = Default)
             (take (Z.to_nat (default_area r)) (trace r)) ∧
      Forall (λ en, en.2 = FloodExpansion)
             (drop (Z.to_nat (default_area r)) (trace r))
  | Raises _ => True
  | OutOfFuel => False
  end.
Proof.
  intros Horder. unfold main.
  destruct (check_outlet dem nodata outlet) as [err|e0] eqn:Hc.
  - by rewrite (main_with_raises _ _ ar _ _ _ _ _ _ err Hc).
  - apply check_outlet_ok in Hc as [Hin Hdata].
    destruct (main_with_spec dem nodata ar order Horder flood_level _
                fair_source_schedule outlet a e Hin Hdata)
      as (st & st2 & adm1 & adm2 & _ & _ & -> & Hmk1 & Hmk2 & _ & _ & _).
    cbn [trace default_area].
    destruct (delineation_count dem nodata _ _ _ Hmk1) as (_ & -> & _).
    rewrite (mk_writes _ _ _ _ _ _ Hmk2), (mk_writes _ _ _ _ _ _ Hmk1).
    rewrite Nat2Z.id. simpl.
    split_and!; [done| |].
    + constructor; [done|]. rewrite take_app_length'.
      * apply Forall_forall. by intros en (q & -> & _)%list_elem_of_fmap.
      * by rewrite length_map.
    + rewrite drop_app_length' by by rewrite length_map.
      apply Forall_forall. by intros en (q & -> & _)%list_elem_of_fmap.
Qed.

Lemma writes_follow_the_steps_witness :
  match main bowl None binary64 elements 5%Q (1, 1) 1%Q (-1)%Q with
  | Returns r =>
      trace r !! 0%nat = Some ((1, 1), Unvisited, Default) ∧
      Forall (λ en, en.2 = Default)
             (take (Z.to_nat (default_area r)) (trace r)) ∧
      Forall (λ en, en.2 = FloodExpansion)
             (drop (Z.to_nat (default_area r)) (trace r))
  | Raises _ => True
  | OutOfFuel => False
  end.
Proof.
  apply (writes_follow_the_steps bowl None binary64 elements 5%Q (1, 1)
           1%Q (-1)%Q).
  intros s. reflexivity.
Defined.

(** On a flat grid without nodata a downhill chain reaches every cell. *)
Lemma flat_all_downhill (dem : ndarray Q) (nodata : option Q) (outlet : cell) :
  flat dem → nodata_free dem nodata → in_bounds dem outlet →
  ∀ p, in_bounds dem p → downhill dem nodata outlet p.
Proof.
  intros Hflat Hfree Hout.
  assert (∀ (n : nat) p,
            in_bounds dem p →
            Z.max (Z.abs (p.1 - outlet.1)) (Z.abs (p.2 - outlet.2))
            ≤ Z.of_nat n →
            downhill dem nodata outlet p) as Hind.
  { induction n as [|n IH]; intros p Hp Hdist.
    - assert (p = outlet) as ->; [|constructor].
      destruct p, outlet; simpl in *; f_equal; lia.
    - destruct (decide (p = outlet)) as [->|Hne]; [constructor|].
      set (p' := (p.1 - Z.sgn (p.1 - outlet.1),
                  p.2 - Z.sgn (p.2 - outlet.2))).
      assert (p ≠ outlet → p.1 ≠ outlet.1 ∨ p.2 ≠ outlet.2) as Hcoord.
      { intros _. destruct (decide (p.1 = outlet.1)) as [H1|]; [|by left].
        right. intros H2. apply Hne. destruct p, outlet; simpl in *.
        by subst. }
      specialize (Hcoord Hne).
      destruct Hp as [Hp1 Hp2], Hout as [Ho1 Ho2].
      apply downhill_next with p'.
      + apply IH.
        * unfold in_bounds, inside, p'. simpl. lia.
        * unfold p'. simpl. lia.
      + split_and!.
        * unfold adjacent8, p'. simpl. lia.
        * done.
        * by apply Hfree.
        * apply Qle_lteq. right. apply Hflat; [done|].
          unfold in_bounds, inside, p'. simpl. lia. }
  intros p Hp.
  apply (Hind (Z.to_nat (Z.max (Z.abs (p.1 - outlet.1))
                               (Z.abs (p.2 - outlet.2)))) p Hp). lia.
Qed.

(** X8 (lines 92-157).  On a grid of one elevation without nodata the
    default area is the whole grid, whatever the flood level: every cell
    is [Default] and both counts are [height * width]. *)
Theorem flat_grid_is_all_default
    (dem : ndarray Q) (nodata : option Q) (ar : arith)
    (order : gset cell → list cell)
    (flood_level : Q) (outlet : cell) (a e : Q) :
  visits_each_once order → flat dem → nodata_free dem nodata →
  match main dem nodata ar order flood_level outlet a e with
  | Returns r =>
      (∀ p, in_bounds dem p → aget 0 (mask r) p = Default) ∧
      default_area r = height dem * width dem ∧
      total_pixels r = height dem * width dem
  | Raises _ => True
  | OutOfFuel => False
  end.
Proof.
  intros Horder Hflat Hfree.
  pose proof (main_with_outcome dem nodata ar order flood_level source_schedule
                outlet a e Horder fair_source_schedule) as Hout.
  unfold main.
  destruct (main_with _ _ ar _ _ _ _ _ _) as [err| |r]; [done|done|].
  destruct Hout as ([Hs Hv Hd _ Hda _ _ _ Htp _ _] & Hin & _).
  assert (∀ p, in_bounds dem p → aget 0 (mask r) p = Default) as Hall.
  { intros p Hp. by apply Hd, flat_all_downhill. }
  split; [done|]. rewrite Hda, Htp.
  pose proof (count_if_zero_nonzero _ _ _ Hs) as Hsum.
  assert (count0 (mask r) ≤ count_if (λ _, False) (mask r))%nat as Hz.
  { apply (count_if_mono _ _ _ _ _ _ Hs Hs). intros p Hp.
    rewrite (Hall p Hp). done. }
  assert (count_if (λ _, False) (mask r) = 0%nat) as Hnone.
  { unfold count_if. induction (concat (mask r)) as [|x l IH]; [done|].
    rewrite filter_cons. by case_decide. }
  assert (count_if (λ x, x ≠ Unvisited) (mask r)
          ≤ count_if (λ x, x = Default) (mask r))%nat as Hle.
  { apply (count_if_mono _ _ _ _ _ _ Hs Hs). intros p Hp _. by apply Hall. }
  assert (count_if (λ x, x = Default) (mask r)
          ≤ count_if (λ x, x ≠ Unvisited) (mask r))%nat as Hge.
  { apply (count_if_mono _ _ _ _ _ _ Hs Hs). intros p _ ->. done. }
  unfold Unvisited, height, width in *.
  destruct dem as [|row rows]; simpl in *; nia.
Qed.

Lemma flat_grid_is_all_default_witness :
  match main plateau None binary64 elements 1%Q (0, 2) 1%Q (-1)%Q with
  | Returns r =>
      (∀ p, in_bounds plateau p → aget 0 (mask r) p = Default) ∧
      default_area r = height plateau * width plateau ∧
      total_pixels r = height plateau * width plateau
  | Raises _ => True
  | OutOfFuel => False
  end.
Proof.
  apply (flat_grid_is_all_default plateau None binary64 elements 1%Q (0, 2)
           1%Q (-1)%Q).
  - intros s. reflexivity.
  - intros p q [[H1 H2] [H3 H4]] [[H5 H6] [H7 H8]].
    unfold height, width, plateau in *. simpl in *.
    assert (p.1 = 0 ∨ p.1 = 1) as [Hp1|Hp1] by lia;
    assert (p.2 = 0 ∨ p.2 = 1 ∨ p.2 = 2) as [Hp2|[Hp2|Hp2]] by lia;
    assert (q.1 = 0 ∨ q.1 = 1) as [Hq1|Hq1] by lia;
    assert (q.2 = 0 ∨ q.2 = 1 ∨ q.2 = 2) as [Hq2|[Hq2|Hq2]] by lia;
    destruct p as [pr pc], q as [qr qc]; simpl in *; subst; reflexivity.
  - intros p _ (nd & Hnd & _). discriminate Hnd.
Defined.

Lemma fair_stack_schedule : fair stack_schedule.
Proof.
  split; simpl.
  - intros d. by rewrite elem_of_reverse.
  - intros queue. destruct (reverse queue) as [|p rest] eqn:Hq; [|done].
    intros _. apply (f_equal reverse) in Hq. by rewrite reverse_involutive in Hq.
  - intros queue p rest. destruct (reverse queue) as [|p' rest'] eqn:Hq; [done|].
    intros [= <- <-]. apply (f_equal reverse) in Hq.
    rewrite reverse_involutive in Hq. subst queue.
    rewrite reverse_cons, reverse_Permutation.
    by rewrite Permutation_app_comm.
Qed.

(** X9 (lines 92-157).  The outputs of the whole run do not depend on the
    order in which neighbours are examined, cells are taken from the two
    queues, or sets are iterated: every fair schedule with any iteration
    order ends as the source's breadth-first run does. *)
Theorem run_does_not_depend_on_visit_order
    (dem : ndarray Q) (nodata : option Q) (ar : arith) (flood_level : Q)
    (outlet : cell)
    (a e : Q) (sch : schedule) (order1 order2 : gset cell → list cell) :
  fair sch → visits_each_once order1 → visits_each_once order2 →
  match main_with dem nodata ar order1 flood_level sch outlet a e,
        main dem nodata ar order2 flood_level outlet a e with
  | Returns r1, Returns r2 => outputs r1 = outputs r2
  | Raises e1, Raises e2 => e1 = e2
  | _, _ => False
  end.
Proof.
  intros Hfair Ho1 Ho2.
  pose proof (main_with_outcome dem nodata ar order1 flood_level sch
                outlet a e Ho1 Hfair) as Hout1.
  pose proof (main_with_outcome dem nodata ar order2 flood_level source_schedule
                outlet a e Ho2 fair_source_schedule) as Hout2.
  unfold main.
  destruct (main_with dem nodata ar order1 _ _ _ _ _) as [e1| |r1],
           (main_with dem nodata ar order2 _ _ _ _ _) as [e2| |r2]; try done.
  - congruence.
  - destruct Hout2 as (_ & Hin%in_grid_inside & Hdata%has_data_spec).
    by rewrite (check_outlet_accepts dem nodata outlet Hin Hdata) in Hout1.
  - destruct Hout1 as (_ & Hin%in_grid_inside & Hdata%has_data_spec).
    by rewrite (check_outlet_accepts dem nodata outlet Hin Hdata) in Hout2.
  - destruct Hout1 as (Hr1 & _), Hout2 as (Hr2 & _).
    by eapply described_unique.
Qed.

Lemma run_does_not_depend_on_visit_order_witness :
  match main_with bowl None binary64 (λ s, reverse (elements s)) 5%Q stack_schedule
                  (1, 1) 1%Q (-1)%Q,
        main bowl None binary64 elements 5%Q (1, 1) 1%Q (-1)%Q with
  | Returns r1, Returns r2 => outputs r1 = outputs r2
  | Raises e1, Raises e2 => e1 = e2
  | _, _ => False
  end.
Proof.
  apply (run_does_not_depend_on_visit_order bowl None binary64 5%Q (1, 1)
           1%Q (-1)%Q
           stack_schedule (λ s, reverse (elements s)) elements).
  - exact fair_stack_schedule.
  - intros s. apply reverse_Permutation.
  - intros s. reflexivity.
Defined.

(** X10 (lines 75, 97, 133, 150).  A nodata sentinel that no cell of the
    grid holds changes nothing: the run ends as it does for a grid that
    declares no sentinel. *)
Theorem unused_nodata_sentinel_is_irrelevant
    (dem : ndarray Q) (ar : arith) (nd flood_level : Q) (outlet : cell)
    (a e : Q) (order1 order2 : gset cell → list cell) :
  nodata_free dem (Some nd) →
  visits_each_once order1 → visits_each_once order2 →
  match main dem (Some nd) ar order1 flood_level outlet a e,
        main dem None ar order2 flood_level outlet a e with
  | Returns r1, Returns r2 => outputs r1 = outputs r2
  | Raises e1, Raises e2 => e1 = e2
  | _, _ => False
  end.
Proof.
  intros Hfree Ho1 Ho2.
  pose proof (main_with_outcome dem (Some nd) ar order1 flood_level
                source_schedule outlet a e Ho1 fair_source_schedule) as Hout1.
  pose proof (main_with_outcome dem None ar order2 flood_level source_schedule
                outlet a e Ho2 fair_source_schedule) as Hout2.
  unfold main.
  destruct (main_with dem (Some nd) ar order1 _ _ _ _ _) as [e1| |r1],
           (main_with dem None ar order2 _ _ _ _ _) as [e2| |r2]; try done.
  - unfold check_outlet in Hout1, Hout2.
    destruct (getitem 0%Q dem outlet); [|congruence].
    destruct (in_grid dem outlet); simpl in *; [done|congruence].
  - destruct Hout2 as (_ & Hin & _).
    pose proof (Hfree outlet Hin) as Hdata%has_data_spec.
    apply in_grid_inside in Hin.
    by rewrite (check_outlet_accepts dem _ outlet Hin Hdata) in Hout1.
  - destruct Hout1 as (_ & Hin%in_grid_inside & _).
    by rewrite (check_outlet_accepts dem None outlet Hin eq_refl) in Hout2.
  - destruct Hout1 as (Hr1 & _), Hout2 as (Hr2 & _).
    eapply described_unique; [|done].
    by apply (described_without_nodata dem ar nd).
Qed.

Lemma unused_nodata_sentinel_is_irrelevant_witness :
  match main bowl (Some (-9999)%Q) binary64 elements 5%Q (1, 1) 1%Q (-1)%Q,
        main bowl None binary64 elements 5%Q (1, 1) 1%Q (-1)%Q with
  | Returns r1, Returns r2 => outputs r1 = outputs r2
  | Raises e1, Raises e2 => e1 = e2
  | _, _ => False
  end.
Proof.
  apply (unused_nodata_sentinel_is_irrelevant bowl binary64 (-9999)%Q 5%Q
           (1, 1) 1%Q (-1)%Q elements elements).
  - intros p [[H1 H2] [H3 H4]] (nd & [= <-] & Heq).
    unfold height, width, bowl in *. simpl in *.
    assert (p.1 = 0 ∨ p.1 = 1 ∨ p.1 = 2) as [Hp1|[Hp1|Hp1]] by lia;
    assert (p.2 = 0 ∨ p.2 = 1 ∨ p.2 = 2) as [Hp2|[Hp2|Hp2]] by lia;
    destruct p as [pr pc]; simpl in *; subst; discriminate Heq.
  - intros s. reflexivity.
  - intros s. reflexivity.
Defined.

(** X11 (lines 195-204).  The label of a vector feature agrees with the
    mask: for a cell handed to the vectorisation ([command_mask > 0]) the
    feature type is ["default"] exactly when the cell is [Default] and
    ["flood_expansion"] exactly when it is [FloodExpansion]. *)
Theorem feature_types_match_mask_values
    (dem : ndarray Q) (nodata : option Q) (ar : arith)
    (order : gset cell → list cell)
    (flood_level : Q) (outlet : cell) (a e : Q) :
  visits_each_once order →
  match main dem nodata ar order flood_level outlet a e with
  | Returns r =>
      ∀ p, selected (mask r) p →
        (prop_type (properties_of flood_level (total_area r)
                                  (aget 0 (mask r) p)) = "default"
         ↔ aget 0 (mask r) p = Default) ∧
        (prop_type (properties_of flood_level (total_area r)
                                  (aget 0 (mask r) p)) = "flood_expansion"
         ↔ aget 0 (mask r) p = FloodExpansion)
  | Raises _ => True
  | OutOfFuel => False
  end.
Proof.
  intros Horder.
  pose proof (main_with_outcome dem nodata ar order flood_level source_schedule
                outlet a e Horder fair_source_schedule) as Hout.
  unfold main.
  destruct (main_with _ _ ar _ _ _ _ _ _) as [err| |r]; [done|done|].
  destruct Hout as ([_ Hv _ _ _ _ _ _ _ _ _] & _ & _).
  intros p Hsel. unfold selected in Hsel.
  destruct (Hv p) as [Hp|[Hp|Hp]]; rewrite Hp in *; [done| |];
    simpl; split; split; done.
Qed.

Lemma feature_types_match_mask_values_witness :
  match main bowl None binary64 elements 5%Q (1, 1) 1%Q (-1)%Q with
  | Returns r =>
      ∀ p, selected (mask r) p →
        (prop_type (properties_of 5%Q (total_area r)
                                  (aget 0 (mask r) p)) = "default"
         ↔ aget 0 (mask r) p = Default) ∧
        (prop_type (properties_of 5%Q (total_area r)
                                  (aget 0 (mask r) p)) = "flood_expansion"
         ↔ aget 0 (mask r) p = FloodExpansion)
  | Raises _ => True
  | OutOfFuel => False
  end.
Proof.
  apply (feature_types_match_mask_values bowl None binary64 elements 5%Q (1, 1)
           1%Q (-1)%Q).
  intros s. reflexivity.
Defined.

(** X12 (lines 102, 165).  The reported counts follow the flood level: for
    [0 <= FL1 <= FL2] on one grid and validated outlet the default count
    is the same in both runs and the total count of the run with [FL2] is
    at least that of the run with [FL1], provided the sums the run
    computes for the cells of the grid do not decrease from [FL1] to
    [FL2]. *)
Theorem pixel_counts_monotone_in_flood_level
    (dem : ndarray Q) (nodata : option Q) (ar : arith)
    (order1 order2 : gset cell → list cell) (fl1 fl2 : Q) (outlet : cell)
    (a e outlet_elev : Q) :
  visits_each_once order1 → visits_each_once order2 →
  check_outlet dem nodata outlet = inr outlet_elev →
  (0 <= fl1)%Q → (fl1 <= fl2)%Q →
  ∃ r1 r2,
    main dem nodata ar order1 fl1 outlet a e = Returns r1 ∧
    main dem nodata ar order2 fl2 outlet a e = Returns r2 ∧
    default_area r1 = default_area r2 ∧
    (tolerance_grows dem ar fl1 fl2 → total_pixels r1 ≤ total_pixels r2).
Proof.
  intros Ho1 Ho2 [Hin Hdata]%check_outlet_ok _ Hle.
  destruct (run_described dem nodata ar outlet order1 fl1 source_schedule a e
              Ho1 fair_source_schedule Hin Hdata) as (r1 & Hm1 & Hr1).
  destruct (run_described dem nodata ar outlet order2 fl2 source_schedule a e
              Ho2 fair_source_schedule Hin Hdata) as (r2 & Hm2 & Hr2).
  exists r1, r2. split_and!; [done|done| |].
  - destruct Hr1 as [Hs1 _ Hd1 _ Hda1 _ _ _ _ _ _],
             Hr2 as [Hs2 _ Hd2 _ Hda2 _ _ _ _ _ _].
    rewrite Hda1, Hda2. f_equal. apply Nat.le_antisymm.
    + apply (count_if_mono _ _ _ _ _ _ Hs1 Hs2). intros p _ Hp.
      by apply Hd2, Hd1.
    + apply (count_if_mono _ _ _ _ _ _ Hs2 Hs1). intros p _ Hp.
      by apply Hd1, Hd2.
  - intros Hgrow.
    destruct Hr1 as [Hs1 Hv1 Hd1 Hf1 _ _ _ _ Htp1 _ _],
             Hr2 as [Hs2 _ Hd2 Hf2 _ _ _ _ Htp2 _ _].
    rewrite Htp1, Htp2. apply inj_le.
    apply (count_if_mono _ _ _ _ _ _ Hs1 Hs2). intros p _ Hp.
    destruct (Hv1 p) as [H0|[H1|H2]]; [done| |].
    + apply Hd1, Hd2 in H1. by rewrite H1.
    + apply Hf1 in H2 as [Hpos Hfl].
      assert (aget 0 (mask r2) p = FloodExpansion) as ->; [|done].
      apply Hf2. split; [by eapply Qlt_le_trans|].
      apply (flood_spec_mono dem nodata ar outlet fl1); [|done..].
      by apply in_grid_inside.
Qed.

Lemma pixel_counts_monotone_in_flood_level_witness :
  ∃ r1 r2,
    main bowl None binary64 elements 2%Q (1, 1) tenth (- tenth)%Q
    = Returns r1 ∧
    main bowl None binary64 elements 5%Q (1, 1) tenth (- tenth)%Q
    = Returns r2 ∧
    default_area r1 = default_area r2 ∧
    total_pixels r1 ≤ total_pixels r2.
Proof.
  destruct (pixel_counts_monotone_in_flood_level bowl None binary64 elements
              elements 2%Q 5%Q (1, 1) tenth (- tenth)%Q 5%Q)
    as (r1 & r2 & Hr1 & Hr2 & Hdef & Htot).
  - intros s. reflexivity.
  - intros s. reflexivity.
  - reflexivity.
  - intros H. discriminate H.
  - intros H. discriminate H.
  - exists r1, r2. split; [exact Hr1|]. split; [exact Hr2|].
    split; [exact Hdef|exact (Htot bowl_tolerance_grows)].
Defined.
